(** * fashion_poc: trend-aware recommendations

    A shallow embedding of the three scripts that carry the algorithmic
    content of the repository,

      - [trend_metrics.py]  ([calc_trends]),
      - [embed_index.py]    ([upsert_item], [build_faiss], the indexing loop),
      - [app.py]            ([recommend]),

    together with the properties of the written specification that concern
    them.

    Numbers.  The Python code computes with IEEE floats ([float32] vectors,
    [float64] trend values).  Floats are idealised here as exact numbers:
    rationals ([Q]) on the query and trend side, where everything is [+], [*],
    [/] and comparisons and every definition evaluates, and reals ([R]) on
    the index-building side, where normalisation takes a square root.
    Where a property turns on the limits of [float32], the underflow of a
    squared norm, the computed squared norm is a parameter of the
    definitions ([build_faiss_by]).

    Libraries.  [pandas], [numpy] and [faiss] are not part of the repository;
    the few operations the scripts call are modelled after their documented
    behaviour, each one marked as such. *)

From Stdlib Require Import List Bool Arith ZArith Lia String Ascii.
From Stdlib Require Import QArith Qminmax Qfield.
From Stdlib Require Import Sorted Permutation.
From Stdlib Require OrderedTypeEx.
From Stdlib Require Import Reals Psatz.
Import ListNotations.

Open Scope Z_scope.

(** ** Exceptions and results *)

(** Python exceptions the modelled code can raise.  The last two are the
    error names of the written specification; no path of the code builds
    them, they are here so that statements about them can be written. *)
Inductive exn : Type :=
| IndexError            (* pandas [iloc] out of bounds *)
| AssertionError        (* a failed [assert] of the faiss wrapper *)
| ValueError            (* numpy [vstack] / pandas [ewm] argument checks *)
| KeyError              (* [d[key]] on a dict without [key] *)
| RuntimeError          (* faiss [read_index] without an index file *)
| StatementError        (* SQLAlchemy [execute] with an empty list *)
| InvalidArgumentError
| InvalidEmbeddingError.

Inductive result (A : Type) : Type :=
| Ok (a : A)
| Raise (e : exn).
Arguments Ok {A} a.
Arguments Raise {A} e.

Definition bind {A B} (r : result A) (f : A -> result B) : result B :=
  match r with
  | Ok a => f a
  | Raise e => Raise e
  end.

Notation "x <- r ;; k" := (bind r (fun x => k))
  (at level 61, r at next level, right associativity).

(** ** A stable sort

    [list.sort] and [DataFrame.sort_values] on distinct keys are modelled
    by one stable insertion sort, whose insertion step also keeps the
    result heap of a search in order.
    [before y x = true] says that [y] has to come strictly before [x];
    elements that are not ordered by [before] keep their original order. *)
Section StableSort.
Context {A : Type} (before : A -> A -> bool).

Fixpoint insert_by (x : A) (l : list A) : list A :=
  match l with
  | [] => [x]
  | y :: l' => if before y x then y :: insert_by x l' else x :: l
  end.

Definition sort_by (l : list A) : list A := fold_right insert_by [] l.
End StableSort.

(** ** The catalogue ([items] table of [embed_index.py])

    [F] is the type of numbers: [R] where the table is written and indexed,
    [Q] where it is only read. *)
Record item (F : Type) : Type := mk_item {
  source : string;
  url : string;
  local_path : string;
  ts : string;
  style : string;
  prob : F;
  emb : list F
}.
Arguments mk_item {F}.
Arguments source {F}.
Arguments url {F}.
Arguments local_path {F}.
Arguments ts {F}.
Arguments style {F}.
Arguments prob {F}.
Arguments emb {F}.

(** A faiss [IndexFlatIP]: the dimension and the stored vectors, in
    insertion order; the label of a vector is its position. *)
Record IndexFlatIP (F : Type) : Type := mk_index {
  d : nat;
  xb : list (list F)
}.
Arguments mk_index {F}.
Arguments d {F}.
Arguments xb {F}.

(** ** Python dicts with string keys, as far as the scripts use them

    An association list; [dict_get] is [d.get(key, default)] and
    [dict_item] is [d[key]]. *)
Definition dict (V : Type) : Type := list (string * V).

Definition dict_get {V} (dc : dict V) (key : string) (default : V) : V :=
  match find (fun kv => String.eqb (fst kv) key) dc with
  | Some kv => snd kv
  | None => default
  end.

Definition dict_item {V} (dc : dict V) (key : string) : result V :=
  match find (fun kv => String.eqb (fst kv) key) dc with
  | Some kv => Ok (snd kv)
  | None => Raise KeyError
  end.

(** ** trend_metrics.py *)
Module TrendMetrics.

Local Open Scope Q_scope.

(** A row of the [trends] table:
    [(style, day, count, ema, velocity)].  Days are calendar dates, kept as
    day numbers; the table stores them as ISO strings, which sort the same
    way. *)
Record trend : Type := mk_trend {
  t_style : string;
  t_day : Z;
  t_count : Z;
  t_ema : Q;
  t_velocity : Q
}.

(** [df.groupby(["style","day"]).size()]: one row per distinct
    [(style, day)] with the number of its occurrences, the rows in
    ascending key order. *)
Definition key_ltb (a b : string * Z) : bool :=
  match String.compare (fst a) (fst b) with
  | Lt => true
  | Eq => (snd a <? snd b)%Z
  | Gt => false
  end.

Definition key_eqb (a b : string * Z) : bool :=
  String.eqb (fst a) (fst b) && (snd a =? snd b)%Z.

Fixpoint count_in (k : string * Z) (g : list (string * Z * Z))
  : list (string * Z * Z) :=
  match g with
  | [] => [(k, 1%Z)]
  | (k', c) :: g' =>
      if key_eqb k k' then (k', (c + 1)%Z) :: g'
      else if key_ltb k k' then (k, 1%Z) :: g
      else (k', c) :: count_in k g'
  end.

Definition groupby_size (df : list (string * Z)) : list (string * Z * Z) :=
  fold_left (fun g k => count_in k g) df [].

(** The group keys of [g.groupby("style")], ascending and distinct. *)
Fixpoint styles_of (g : list (string * Z * Z)) : list string :=
  match g with
  | [] => []
  | (s, _, _) :: g' =>
      match styles_of g' with
      | s' :: rest => if String.eqb s s' then s' :: rest else s :: s' :: rest
      | [] => [s]
      end
  end.

(** The group of one style, [sort_values("day")] applied. *)
Definition group_of (s : string) (g : list (string * Z * Z)) : list (Z * Z) :=
  sort_by (fun y x => (fst y <? fst x)%Z)
    (map (fun r => (snd (fst r), snd r))
       (filter (fun r => String.eqb (fst (fst r)) s) g)).

(** Modelled from the library: [Series.ewm(span=span).mean()] of pandas,
    with its defaults [adjust=True], [min_periods=0] on a series without
    missing values.  The smoothing factor is [alpha = 2 / (span + 1)];
    pandas refuses [span < 1] with a [ValueError].  The loop keeps the
    current mean [weighted] and the total weight [old_wt] of the
    observations behind it, and leaves the mean alone when the next
    observation equals it. *)
Definition alpha_of_span (span : Z) : Q := 2 / (inject_Z span + 1).

Fixpoint ewm_loop (alpha : Q) (weighted old_wt : Q) (xs : list Q) : list Q :=
  match xs with
  | [] => []
  | cur :: xs' =>
      let old_wt := old_wt * (1 - alpha) in
      let weighted :=
        if Qeq_bool weighted cur then weighted
        else (old_wt * weighted + cur) / (old_wt + 1) in
      weighted :: ewm_loop alpha weighted (old_wt + 1) xs'
  end.

Definition ewm_mean (span : Z) (xs : list Q) : result (list Q) :=
  if (span <? 1)%Z then Raise ValueError
  else match xs with
       | [] => Ok []
       | x0 :: xs' => Ok (x0 :: ewm_loop (alpha_of_span span) x0 1 xs')
       end.

(** [Series.diff().fillna(0)]. *)
Fixpoint diff_from (prev : Q) (xs : list Q) : list Q :=
  match xs with
  | [] => []
  | x :: xs' => (x - prev) :: diff_from x xs'
  end.

Definition diff_fillna0 (xs : list Q) : list Q :=
  match xs with
  | [] => []
  | x :: xs' => 0 :: diff_from x xs'
  end.

Fixpoint zip3 {A B C} (l1 : list A) (l2 : list B) (l3 : list C)
  : list (A * B * C) :=
  match l1, l2, l3 with
  | a :: l1', b :: l2', c :: l3' => (a, b, c) :: zip3 l1' l2' l3'
  | _, _, _ => []
  end.

(** The rows [calc_trends] appends for one style. *)
Definition style_rows (span : Z) (s : string) (gdf : list (Z * Z))
  : result (list trend) :=
  ema <- ewm_mean span (map (fun r => inject_Z (snd r)) gdf) ;;
  Ok (map (fun r => match r with
                    | ((day, count), e, v) => mk_trend s day count e v
                    end)
        (zip3 gdf ema (diff_fillna0 ema))).

(** The loop over [g.groupby("style")]. *)
Fixpoint trends_loop (span : Z) (g : list (string * Z * Z))
    (styles : list string) (out : list trend) : result (list trend) :=
  match styles with
  | [] => Ok out
  | s :: styles' =>
      rows <- style_rows span s (group_of s g) ;;
      trends_loop span g styles' (out ++ rows)
  end.

(** [calc_trends(span)] on the dated rows: [df] holds the [style] and the
    calendar day of every row of [items] whose [ts] parses to a date (the
    parsing is pandas' and is not modelled); the result is the new content
    of the [trends] table, which is emptied before the rows are
    inserted. *)
Definition calc_trends (span : Z) (df : list (string * Z))
  : result (list trend) :=
  let g := groupby_size df in
  trends_loop span g (styles_of g) [].

(** The rows of [items] as [calc_trends] reads them: the [style] of a row
    and the day of its [ts], or no day when [ts] does not parse to a date,
    as for the empty [ts] that the indexing script stores with the second
    row of an image.  [groupby] drops the rows whose key has no day. *)
Definition dated (rows : list (string * option Z)) : list (string * Z) :=
  flat_map
    (fun r => match snd r with
              | Some day => [(fst r, day)]
              | None => []
              end)
    rows.

Definition undated (r : string * option Z) : bool :=
  match snd r with
  | Some _ => false
  | None => true
  end.

(** [calc_trends(span)] on the rows of [items].  The [INSERT] of line 23
    is executed with the list of the rows to write; with an empty list
    SQLAlchemy raises a [StatementError], and the transaction, with the
    [DELETE] before it, is rolled back. *)
Definition calc_trends_items (span : Z) (rows : list (string * option Z))
  : result (list trend) :=
  out <- calc_trends span (dated rows) ;;
  match out with
  | [] => Raise StatementError
  | _ => Ok out
  end.

End TrendMetrics.

(** ** app.py *)
Module App.
Import TrendMetrics.
Local Open Scope Q_scope.

(** Modelled from the library: [IndexFlatIP.search(q, n)] of faiss for one
    query vector.  The Python wrapper (faiss 1.7) asserts that the query
    has the dimension of the index and that [n > 0].  The search scores the
    stored vectors in label order by their inner product with [q] and
    collects them in a result heap of [n] places that is ordered by score,
    equal scores by label: a vector takes a free place while there is one;
    afterwards it enters only when its score is strictly greater than the
    least score kept, and then the least entry (among equal scores the one
    of least label) leaves.  The result lists the entries kept from the
    greatest to the least, so that equal scores come in descending order of
    label, and, when fewer than [n] vectors are stored, fills the free
    places with label [-1] and distance [-FLT_MAX], the least [float32],
    which every score exceeds. *)
Fixpoint inner (u v : list Q) : Q :=
  match u, v with
  | a :: u', b :: v' => a * b + inner u' v'
  | _, _ => 0
  end.

Definition FLT_MAX : Q := inject_Z (2 ^ 128 - 2 ^ 104).

Fixpoint enumerate_from {A} (i : Z) (l : list A) : list (Z * A) :=
  match l with
  | [] => []
  | a :: l' => (i, a) :: enumerate_from (i + 1)%Z l'
  end.

Definition score_gtb (y x : Z * Q) : bool := negb (Qle_bool (snd y) (snd x)).

Definition heap_gtb (y x : Z * Q) : bool :=
  score_gtb y x || (Qeq_bool (snd y) (snd x) && (fst x <? fst y)%Z).

(** [kept] is the content of the heap, from the greatest entry to the
    least. *)
Definition add_result (n : nat) (kept : list (Z * Q)) (e : Z * Q)
  : list (Z * Q) :=
  if (List.length kept <? n)%nat then insert_by heap_gtb e kept
  else if score_gtb e (last kept e)
       then insert_by heap_gtb e (removelast kept)
       else kept.

Definition knn (n : nat) (scored : list (Z * Q)) : list (Z * Q) :=
  fold_left (add_result n) scored [].

Definition search (index : IndexFlatIP Q) (q : list Q) (n : Z)
  : result (list (Z * Q)) :=
  if negb (List.length q =? d index)%nat then Raise AssertionError
  else if (n <=? 0)%Z then Raise AssertionError
  else
    let scored := enumerate_from 0%Z (map (inner q) (xb index)) in
    let top := knn (Z.to_nat n) scored in
    Ok (top ++ repeat ((-1)%Z, - FLT_MAX) (Z.to_nat n - List.length top)).

(** [index = faiss.read_index("data/index.faiss")], run when the module is
    loaded: [file] is the content of the index file, if there is one. *)
Definition read_index {F} (file : option (IndexFlatIP F))
  : result (IndexFlatIP F) :=
  match file with
  | Some index => Ok index
  | None => Raise RuntimeError
  end.

(** Modelled from the library: [DataFrame.iloc[idx]] of pandas with an
    integer position: a negative position counts from the end, a position
    outside [-len, len) raises [IndexError]. *)
Definition iloc {A} (rows : list A) (idx : Z) : result A :=
  let n := Z.of_nat (List.length rows) in
  let pos := if (idx <? 0)%Z then (idx + n)%Z else idx in
  if (pos <? 0)%Z || (n <=? pos)%Z then Raise IndexError
  else match nth_error rows (Z.to_nat pos) with
       | Some r => Ok r
       | None => Raise IndexError
       end.

(** [trends.sort_values("day").groupby("style").tail(1)
      .set_index("style")["velocity"].to_dict()]:
    for every style the velocity of its row with the greatest day.  Rows
    of equal day keep their order here; a table written by [calc_trends]
    has one row per style and day, so that no such tie decides an entry. *)
Fixpoint tail1 (rows : list trend) : list trend :=
  match rows with
  | [] => []
  | r :: rows' =>
      if existsb (fun r' => String.eqb (t_style r') (t_style r)) rows'
      then tail1 rows'
      else r :: tail1 rows'
  end.

Definition latest_of (trends : list trend) : dict Q :=
  map (fun r => (t_style r, t_velocity r))
    (tail1 (sort_by (fun y x => (t_day y <? t_day x)%Z) trends)).

(** An entry of [chosen]: [(score, local_path, style)]. *)
Definition entry : Type := Q * string * string.
Definition e_score (c : entry) : Q := fst (fst c).
Definition e_path (c : entry) : string := snd (fst c).
Definition e_style (c : entry) : string := snd c.

(** [row["style"] not in styles] is only looked at when [styles] is
    non-empty ([if styles and ...]). *)
Definition skipped (styles : list string) (s : string) : bool :=
  match styles with
  | [] => false
  | _ => negb (existsb (String.eqb s) styles)
  end.

(** The loop of [recommend] over [zip(I[0], D[0])]. *)
Fixpoint walk {F} (items : list (item F)) (latest : dict Q)
    (styles : list string) (k : Z) (pool : list (Z * Q))
    (chosen : list entry) : result (list entry) :=
  match pool with
  | [] => Ok chosen
  | (idx, dist) :: pool' =>
      row <- iloc items idx ;;
      if skipped styles (style row) then
        walk items latest styles k pool' chosen
      else
        let trend_boost := Qmax 0 (dict_get latest (style row) 0) in
        let score := dist + (1 # 4) * trend_boost in
        let chosen := chosen ++ [(score, local_path row, style row)] in
        if (k <=? Z.of_nat (List.length chosen))%Z then Ok chosen
        else walk items latest styles k pool' chosen
  end.

(** Python's order on the tuples of [chosen]: by score, then by
    [local_path], then by [style], strings compared by code point. *)
Definition entry_ltb (a b : entry) : bool :=
  match e_score a ?= e_score b with
  | Lt => true
  | Gt => false
  | Eq =>
      match String.compare (e_path a) (e_path b) with
      | Lt => true
      | Gt => false
      | Eq =>
          match String.compare (e_style a) (e_style b) with
          | Lt => true
          | _ => false
          end
      end
  end.

(** [chosen.sort(reverse=True)]: descending, equal tuples in their
    original order. *)
Definition sort_reverse (chosen : list entry) : list entry :=
  sort_by (fun y x => entry_ltb x y) chosen.

(** [recommend] up to the sorted [chosen] list.  [q] is the embedding of
    the uploaded image (the CLIP model is outside the repository);
    [index], [items] and [trends] are what the process has loaded and
    what the two tables hold. *)
Definition ranked {F} (index : IndexFlatIP Q) (items : list (item F))
    (trends : list trend) (q : list Q) (styles : list string) (k : Z)
  : result (list entry) :=
  pool <- search index q (k * 5)%Z ;;
  chosen <- walk items (latest_of trends) styles k pool [] ;;
  Ok (sort_reverse chosen).

(** [recommend(user_img, styles, k)]: the gallery images and their
    captions. *)
Definition recommend {F} (index : IndexFlatIP Q) (items : list (item F))
    (trends : list trend) (q : list Q) (styles : list string) (k : Z)
  : result (list string * list string) :=
  chosen <- ranked index items trends q styles k ;;
  Ok (map e_path chosen, map e_style chosen).


End App.

(** ** embed_index.py *)
Module EmbedIndex.
Local Open Scope R_scope.

(** [upsert_item(meta, style, prob, emb)]: one [INSERT] into [items];
    the table is the list of its rows in insertion order.  [now] is the
    clock reading that serves as the default of [ts]. *)
Definition upsert_item (meta : dict string) (sty : string) (pr : R)
    (v : list R) (now : string) (items : list (item R))
  : result (list (item R)) :=
  local <- dict_item meta "local_path" ;;
  Ok (items ++ [mk_item (dict_get meta "sub" "reddit"%string)
                        (dict_get meta "url" ""%string)
                        local
                        (dict_get meta "ts" now)
                        sty pr v]).

(** Modelled from the library: [numpy.vstack] of row vectors, which needs
    at least one row and rows of one length. *)
Definition vstack (rows : list (list R)) : result (list (list R)) :=
  match rows with
  | [] => Raise ValueError
  | r :: rs =>
      if forallb (fun r' => (List.length r' =? List.length r)%nat) rs
      then Ok rows
      else Raise ValueError
  end.

(** Modelled from the library: [faiss.normalize_L2], which scales every
    row of positive squared norm by the inverse of its norm and leaves
    the other rows as they are. *)
Definition norm_L2sqr (x : list R) : R :=
  fold_right (fun a acc => a * a + acc) 0 x.

Definition renorm_L2 (x : list R) : list R :=
  let nr := norm_L2sqr x in
  if Rlt_dec 0 nr then map (fun a => a * (1 / sqrt nr)) x else x.

Definition normalize_L2 (X : list (list R)) : list (list R) :=
  map renorm_L2 X.

(** [build_faiss()]: [file] is the content of [data/index.faiss] before
    the call, the result its content after. *)
Definition build_faiss (items : list (item R))
    (file : option (IndexFlatIP R)) : result (option (IndexFlatIP R)) :=
  match items with
  | [] => Ok file
  | _ =>
      X <- vstack (map emb items) ;;
      Ok (Some (mk_index (List.length (hd [] X)) (normalize_L2 X)))
  end.

(** [faiss.normalize_L2] works in [float32]: the squared norm it computes
    for a row is [0] for the zero vector and also for a row so small that
    its squares underflow.  In the three definitions below [sqnorm] stands
    for the squared norm as it is computed; [renorm_L2], [normalize_L2] and
    [build_faiss] above are the case of exact arithmetic,
    [sqnorm = norm_L2sqr]. *)
Definition renorm_L2_by (sqnorm : list R -> R) (x : list R) : list R :=
  let nr := sqnorm x in
  if Rlt_dec 0 nr then map (fun a => a * (1 / sqrt nr)) x else x.

Definition normalize_L2_by (sqnorm : list R -> R) (X : list (list R))
  : list (list R) :=
  map (renorm_L2_by sqnorm) X.

Definition build_faiss_by (sqnorm : list R -> R) (items : list (item R))
    (file : option (IndexFlatIP R)) : result (option (IndexFlatIP R)) :=
  match items with
  | [] => Ok file
  | _ =>
      X <- vstack (map emb items) ;;
      Ok (Some (mk_index (List.length (hd [] X)) (normalize_L2_by sqnorm X)))
  end.

Section Main.
(** The CLIP model, the clock and the metadata read from
    [data/public_meta.csv] are inputs of the script. *)
Variable embed_img : string -> list R.
Variable zero_shot_style : list R -> string * R.
Variable utcnow : string -> string.
Variable meta_by_path : dict (dict string).

(** The body of the loop over [glob.glob("data/images/*")]. *)
Definition index_image (p : string) (items : list (item R))
  : result (list (item R)) :=
  let v := embed_img p in
  let (sty, pr) := zero_shot_style v in
  let meta := [("local_path", p); ("ts", utcnow p); ("url", "");
               ("sub", "reddit")]%string in
  items <- upsert_item meta sty pr v (utcnow p) items ;;
  let meta := dict_get meta_by_path p [] in
  upsert_item [("sub", dict_get meta "sub" "reddit");
               ("url", dict_get meta "url" "");
               ("ts", dict_get meta "ts" "");
               ("local_path", p)]%string
    sty pr v (utcnow p) items.

Fixpoint index_images (ps : list string) (items : list (item R))
  : result (list (item R)) :=
  match ps with
  | [] => Ok items
  | p :: ps' =>
      items <- index_image p items ;;
      index_images ps' items
  end.

(** The script: the state is the [items] table and the index file. *)
Definition main (ps : list string) (items : list (item R))
    (file : option (IndexFlatIP R))
  : result (list (item R) * option (IndexFlatIP R)) :=
  items <- index_images ps items ;;
  file <- build_faiss items file ;;
  Ok (items, file).
End Main.

(** [STYLES] and the prompt [load_model] tokenizes for each of them. *)
Definition STYLES : list string :=
  ["streetwear"; "formal"; "business casual"; "vintage"; "minimalist";
   "grunge"]%string.

Definition prompt (s : string) : string :=
  ("a photo of " ++ s ++ " menswear outfit")%string.

(** Modelled from the library: [x / x.norm(dim=-1, keepdim=True)] of
    torch on one row. *)
Definition unit_norm (x : list R) : list R :=
  map (fun a => a / sqrt (norm_L2sqr x)) x.

(** [embed_img(path, model, preprocess, device)]: [encode_image] stands
    for opening the file, preprocessing it and running the CLIP image
    encoder. *)
Definition embed_img (encode_image : string -> list R) (path : string)
  : list R :=
  unit_norm (encode_image path).

Fixpoint dot (u v : list R) : R :=
  match u, v with
  | a :: u', b :: v' => a * b + dot u' v'
  | _, _ => 0
  end.

(** Modelled from the library: [softmax(dim=-1)] of torch and [argmax] of
    numpy (the first position of the greatest entry) on one row. *)
Definition softmax (z : list R) : list R :=
  let e := map exp z in
  map (fun a => a / fold_right Rplus 0 e) e.

Fixpoint argmax_from (i best_i : nat) (best : R) (xs : list R) : nat :=
  match xs with
  | [] => best_i
  | x :: xs' =>
      if Rlt_dec best x then argmax_from (S i) i x xs'
      else argmax_from (S i) best_i best xs'
  end.

Definition argmax (xs : list R) : nat :=
  match xs with
  | [] => O
  | x :: xs' => argmax_from 1 O x xs'
  end.

(** Modelled from the library: [v_t @ t.T] of torch on one row [v] and
    the rows of [t]; torch raises a [RuntimeError] when the shapes cannot
    be multiplied. *)
Definition matmul_T (v : list R) (t : list (list R)) : result (list R) :=
  if forallb (fun r => (List.length r =? List.length v)%nat) t
  then Ok (map (dot v) t)
  else Raise RuntimeError.

(** [zero_shot_style(v, model, text_tokens, device)]: [encode_text] stands
    for tokenizing a prompt and running the CLIP text encoder; the text
    tokens are the prompts of [STYLES], in that order. *)
Definition zero_shot_style (encode_text : string -> list R) (v : list R)
  : result (string * R) :=
  let t := map (fun s => unit_norm (encode_text (prompt s))) STYLES in
  z <- matmul_T v t ;;
  let logits := softmax z in
  let i := argmax logits in
  Ok (nth i STYLES ""%string, nth i logits 0).

End EmbedIndex.

(** ** Notions the properties are stated with *)
Module Spec.
Import TrendMetrics App.
Local Open Scope Q_scope.

(** The order in which [recommend] leaves two entries: [a] may stand
    before [b] when [a] is at least [b] in the lexicographic order of
    (score, local_path, style). *)
Definition entry_ge (a b : entry) : Prop :=
  e_score b < e_score a \/
  (e_score a == e_score b /\
   (String.compare (e_path b) (e_path a) = Lt \/
    (e_path a = e_path b /\
     (String.compare (e_style b) (e_style a) = Lt \/
      e_style a = e_style b)))).

(** The lookup of the code, [latest.get(category, 0.0)], in the velocity
    table that [recommend] builds; [last_velocity] below is the notion of
    the specification. *)
Definition latestVelocity (trends : list trend) (category : string) : Q :=
  dict_get (latest_of trends) category 0.

(** [latestVelocity(category)] in the words of the specification: the
    velocity of the chronologically last trend point of the category, [0]
    for a category without trend points.  [last_point] goes through the
    table once and keeps the point of the category with the greatest
    day. *)
Fixpoint last_point (category : string) (trends : list trend)
  : option trend :=
  match trends with
  | [] => None
  | r :: rest =>
      match last_point category rest with
      | Some b =>
          if String.eqb (t_style r) category && (t_day b <? t_day r)%Z
          then Some r
          else Some b
      | None => if String.eqb (t_style r) category then Some r else None
      end
  end.

Definition last_velocity (trends : list trend) (category : string) : Q :=
  match last_point category trends with
  | Some r => t_velocity r
  | None => 0
  end.

(** The entry a candidate at distance [dist] resolved to [row] gets. *)
Definition entry_of {F} (latest : dict Q) (c : Q * item F) : entry :=
  (fst c + (1 # 4) * Qmax 0 (dict_get latest (style (snd c)) 0),
   local_path (snd c), style (snd c)).

(** A candidate passes the category filter: the filter is empty or holds
    the candidate's style. *)
Definition allowed {F} (styles : list string) (row : item F) : bool :=
  match styles with
  | [] => true
  | _ => existsb (String.eqb (style row)) styles
  end.

(** The candidates of a pool resolved to [rows], with their distances,
    that pass the filter, in pool order. *)
Definition passing {F} (styles : list string) (pool : list (Z * Q))
    (rows : list (item F)) : list (Q * item F) :=
  filter (fun c => allowed styles (snd c)) (combine (map snd pool) rows).

(** [rows] are the catalogue rows the labels of [pool] stand for. *)
Definition resolves {F} (items : list (item F)) (pool : list (Z * Q))
    (rows : list (item F)) : Prop :=
  Forall2 (fun c row => iloc items (fst c) = Ok row) pool rows.

(** The padding of a search result and the entry it turns into. *)
Definition padding : Z * Q := ((-1)%Z, - FLT_MAX).

(** [pool] lists nearest neighbours of [q] among the vectors of [index],
    in similarity order: the similarities descend along the list, every
    entry is the label of a stored vector together with its similarity to
    [q], no label occurs twice, and no stored vector that is left out is
    more similar to [q] than one that is listed. *)
Definition nearest (index : IndexFlatIP Q) (q : list Q)
    (pool : list (Z * Q)) : Prop :=
  StronglySorted (fun a b => snd b <= snd a) pool
  /\ NoDup (map fst pool)
  /\ (forall c, In c pool ->
        exists x, (0 <= fst c)%Z
                  /\ nth_error (xb index) (Z.to_nat (fst c)) = Some x
                  /\ snd c = inner q x)
  /\ (forall i x, nth_error (xb index) i = Some x ->
        ~ In (Z.of_nat i) (map fst pool) ->
        forall c, In c pool -> inner q x <= snd c).

(** The adjusted exponential mean of the pandas documentation, with
    [w = 1 - alpha]:
    [y_i = (x_i + w x_(i-1) + ... + w^i x_0) / (1 + w + ... + w^i)]. *)
Fixpoint Qpow (w : Q) (j : nat) : Q :=
  match j with
  | O => 1
  | S j' => w * Qpow w j'
  end.

(** [wsum w j [x_i; x_(i-1); ...]] is [w^j x_i + w^(j+1) x_(i-1) + ...]. *)
Fixpoint wsum (w : Q) (j : nat) (recent_first : list Q) : Q :=
  match recent_first with
  | [] => 0
  | x :: older => Qpow w j * x + wsum w (S j) older
  end.

Definition adjusted_mean (w : Q) (recent_first : list Q) : Q :=
  wsum w 0 recent_first / wsum w 0 (map (fun _ => 1) recent_first).

Fixpoint adjusted_from (w : Q) (seen : list Q) (xs : list Q) : list Q :=
  match xs with
  | [] => []
  | x :: xs' =>
      adjusted_mean w (x :: seen) :: adjusted_from w (x :: seen) xs'
  end.

Definition adjusted_ema (alpha : Q) (xs : list Q) : list Q :=
  adjusted_from (1 - alpha) [] xs.

(** The recursive mean of the written specification:
    [ema_0 = x_0], [ema_i = alpha x_i + (1 - alpha) ema_(i-1)]. *)
Fixpoint recursive_from (alpha : Q) (prev : Q) (xs : list Q) : list Q :=
  match xs with
  | [] => []
  | x :: xs' =>
      let e := alpha * x + (1 - alpha) * prev in
      e :: recursive_from alpha e xs'
  end.

Definition recursive_ema (alpha : Q) (xs : list Q) : list Q :=
  match xs with
  | [] => []
  | x :: xs' => x :: recursive_from alpha x xs'
  end.

(** The number of rows of [df] with the key [(style, day)], and the count
    a grouped table holds for a key ([0] when the key is absent). *)
Definition occurrences (k : string * Z) (df : list (string * Z)) : Z :=
  Z.of_nat (List.length (filter (key_eqb k) df)).

Fixpoint count_of (k : string * Z) (g : list (string * Z * Z)) : Z :=
  match g with
  | [] => 0%Z
  | (k', c) :: g' => if key_eqb k k' then c else count_of k g'
  end.

(** A grouped table in strictly ascending key order, with positive
    counts. *)
Definition grouped (g : list (string * Z * Z)) : Prop :=
  StronglySorted (fun a b => key_ltb (fst a) (fst b) = true) g
  /\ Forall (fun e => (0 < snd e)%Z) g.

(** The length of a vector. *)
Definition norm_L2 (x : list R) : R := sqrt (EmbedIndex.norm_L2sqr x).

(** The two rows the indexing loop inserts for the image at path [p]. *)
Definition fresh_row (embed_img : string -> list R)
    (zero_shot_style : list R -> string * R) (utcnow : string -> string)
    (p : string) : item R :=
  let v := embed_img p in
  mk_item "reddit" "" p (utcnow p)
    (fst (zero_shot_style v)) (snd (zero_shot_style v)) v.

Definition csv_row (embed_img : string -> list R)
    (zero_shot_style : list R -> string * R)
    (meta_by_path : dict (dict string)) (p : string) : item R :=
  let v := embed_img p in
  let meta := dict_get meta_by_path p [] in
  mk_item (dict_get meta "sub" "reddit"%string)
    (dict_get meta "url" ""%string) p (dict_get meta "ts" ""%string)
    (fst (zero_shot_style v)) (snd (zero_shot_style v)) v.
End Spec.

(** ** Concrete catalogues, indexes and tables *)
Module Scenario.
Import TrendMetrics App.
Local Open Scope Q_scope.
Local Open Scope string_scope.

Definition photo (p s : string) (v : list Q) : item Q :=
  mk_item "reddit" "" p "" s 1 v.

(** Daily counts [2, 2, 8, 2] of one style over four consecutive days,
    the rows in no particular order, and one row of another style. *)
Definition streetwear_days : list (string * Z) :=
  [("streetwear", 3%Z); ("streetwear", 0%Z); ("streetwear", 2%Z);
   ("streetwear", 1%Z); ("streetwear", 2%Z); ("streetwear", 2%Z);
   ("formal", 2%Z);
   ("streetwear", 0%Z); ("streetwear", 2%Z); ("streetwear", 2%Z);
   ("streetwear", 1%Z); ("streetwear", 2%Z); ("streetwear", 2%Z);
   ("streetwear", 2%Z); ("streetwear", 3%Z)].

(** The rows the indexing script writes for two images: for each image
    one row with the time of the run and one with an empty [ts]. *)
Definition indexed_rows : list (string * option Z) :=
  [("formal", Some 2%Z); ("formal", None);
   ("grunge", Some 2%Z); ("grunge", None)].

(** Two photos whose combined scores tie: the first is the nearest
    neighbour of the query, the second is boosted by its style's trend. *)
Definition tie_items : list (item Q) :=
  [photo "data/images/a.jpg" "formal" [1; 0];
   photo "data/images/b.jpg" "grunge" [0; 1]].
Definition tie_index : IndexFlatIP Q := mk_index 2 (map emb tie_items).
Definition tie_trends : list trend :=
  [mk_trend "grunge" 0 1 1 0; mk_trend "grunge" 1 9 (29 # 5) 4].
Definition tie_query : list Q := [1; 0].
Definition tie_ranked : list entry :=
  [(4 # 4, "data/images/b.jpg", "grunge");
   (4 # 4, "data/images/a.jpg", "formal")].

(** Six photos whose order in the table is not their order of similarity
    to the query [[1; 0]], the five nearest of them and the rows these
    stand for. *)
Definition near_items : list (item Q) :=
  [photo "a.jpg" "formal" [3 # 5; 4 # 5];
   photo "b.jpg" "grunge" [1; 0];
   photo "c.jpg" "formal" [4 # 5; 3 # 5];
   photo "d.jpg" "vintage" [0; 1];
   photo "e.jpg" "formal" [-1; 0];
   photo "f.jpg" "grunge" [- (3 # 5); 4 # 5]].
Definition near_index : IndexFlatIP Q := mk_index 2 (map emb near_items).
Definition near_pool : list (Z * Q) :=
  [(1%Z, 1 * 1 + (0 * 0 + 0));
   (2%Z, 1 * (4 # 5) + (0 * (3 # 5) + 0));
   (0%Z, 1 * (3 # 5) + (0 * (4 # 5) + 0));
   (3%Z, 1 * 0 + (0 * 1 + 0));
   (5%Z, 1 * - (3 # 5) + (0 * (4 # 5) + 0))].
Definition near_rows : list (item Q) :=
  [photo "b.jpg" "grunge" [1; 0];
   photo "c.jpg" "formal" [4 # 5; 3 # 5];
   photo "a.jpg" "formal" [3 # 5; 4 # 5];
   photo "d.jpg" "vintage" [0; 1];
   photo "f.jpg" "grunge" [- (3 # 5); 4 # 5]].

(** A trends table with a declining and a rising style: daily counts
    [5, 1] and [1, 9], smoothed with [span = 5]. *)
Definition swing_trends : list trend :=
  [mk_trend "formal" 0 5 5 0;
   mk_trend "formal" 1 1 (13 # 5) (- (12 # 5));
   mk_trend "grunge" 0 1 1 0;
   mk_trend "grunge" 1 9 (29 # 5) (24 # 5)].

(** An index without vectors and a catalogue without rows. *)
Definition empty_index : IndexFlatIP Q := mk_index 2 [].
Definition empty_items : list (item Q) := [].

(** Ten formal photos near the query and one vintage photo far from it. *)
Definition far_items : list (item Q) :=
  map (fun n => photo (String (ascii_of_nat (97 + n)) ".jpg") "formal"
                  [1; 0])
    (seq 0 10)
  ++ [photo "z.jpg" "vintage" [0; 1]].
Definition far_index : IndexFlatIP Q := mk_index 2 (map emb far_items).

(** A catalogue whose first embedding is the zero vector, and a CLIP
    stand-in for two image files. *)
Definition blank_items : list (item R) :=
  [mk_item "reddit" "" "data/images/blank.png" "" "formal" 1%R
     [0%R; 0%R];
   mk_item "reddit" "" "data/images/coat.png" "" "formal" 1%R
     [3%R; 4%R]].
(** A squared norm with the underflow of [float32]: a square below
    [2^-150], half the least positive number of the format, counts as [0].
    The first embedding of [faint_items] is not the zero vector, but its
    squares underflow. *)
Definition sqnorm_underflow (x : list R) : R :=
  fold_right
    (fun a acc =>
       ((if Rlt_dec (a * a) (/ 2 ^ 150) then 0 else a * a) + acc)%R)
    0%R x.
Definition tiny : R := (/ 10 ^ 30)%R.
Definition faint_items : list (item R) :=
  [mk_item "reddit" "" "data/images/faint.png" "" "formal" 1%R
     [tiny; 0%R];
   mk_item "reddit" "" "data/images/coat.png" "" "formal" 1%R
     [3%R; 4%R]].
Definition two_images : list string :=
  ["data/images/a.jpg"; "data/images/b.jpg"].
Definition flat_embed (p : string) : list R := [1%R; 0%R].
Definition flat_style (v : list R) : string * R := ("formal", 1%R).
Definition flat_clock (p : string) : string := "2024-01-01T00:00:00".
End Scenario.

Import TrendMetrics App EmbedIndex Spec.

(** * Properties *)

(** ** Results *)

Lemma bind_Ok {A B} (r : result A) (f : A -> result B) (b : B) :
  bind r f = Ok b -> exists a, r = Ok a /\ f a = Ok b.
Proof.
  destruct r as [a|e]; simpl; intros H; [eauto | discriminate].
Qed.

(** ** The stable sort *)
Section StableSortFacts.
Context {A : Type} (before : A -> A -> bool).

Lemma insert_by_perm (x : A) (l : list A) :
  Permutation (insert_by before x l) (x :: l).
Proof.
  induction l as [|y l IH]; simpl.
  - apply Permutation_refl.
  - destruct (before y x).
    + eapply perm_trans; [apply perm_skip, IH | apply perm_swap].
    + apply Permutation_refl.
Qed.

Lemma sort_by_perm (l : list A) : Permutation (sort_by before l) l.
Proof.
  induction l as [|x l IH]; simpl.
  - constructor.
  - eapply perm_trans; [apply insert_by_perm | now apply perm_skip].
Qed.

Lemma sort_by_length (l : list A) :
  List.length (sort_by before l) = List.length l.
Proof. apply Permutation_length, sort_by_perm. Qed.

(** When [before] is a strict order whose complement is transitive, the
    result is sorted: no element has to come before one that precedes
    it. *)
Hypothesis before_asym : forall a b, before a b = true -> before b a = false.
Hypothesis before_trans :
  forall a b c, before b a = false -> before c b = false -> before c a = false.

Lemma insert_by_sorted (x : A) (l : list A) :
  StronglySorted (fun a b => before b a = false) l ->
  StronglySorted (fun a b => before b a = false) (insert_by before x l).
Proof.
  induction 1 as [|y l Hl IH Hy]; simpl.
  - repeat constructor.
  - destruct (before y x) eqn:E.
    + constructor; [exact IH|].
      eapply Permutation_Forall;
        [apply Permutation_sym, insert_by_perm|].
      constructor; [now apply before_asym | exact Hy].
    + constructor; [now constructor|].
      constructor; [exact E|].
      eapply Forall_impl; [|exact Hy].
      intros z Hz. now apply (before_trans x y z).
Qed.

Lemma sort_by_sorted (l : list A) :
  StronglySorted (fun a b => before b a = false) (sort_by before l).
Proof.
  induction l as [|x l IH]; simpl.
  - constructor.
  - now apply insert_by_sorted.
Qed.
End StableSortFacts.

(** ** The order of strings and of entries *)

Lemma str_lt_trans (a b c : string) :
  String.compare a b = Lt -> String.compare b c = Lt -> String.compare a c = Lt.
Proof.
  intros H1 H2.
  apply OrderedTypeEx.String_as_OT.cmp_lt.
  apply OrderedTypeEx.String_as_OT.cmp_lt in H1.
  apply OrderedTypeEx.String_as_OT.cmp_lt in H2.
  exact (OrderedTypeEx.String_as_OT.lt_trans _ _ _ H1 H2).
Qed.

Lemma str_gt_lt (a b : string) :
  String.compare a b = Gt -> String.compare b a = Lt.
Proof.
  intros H. rewrite String.compare_antisym, H. reflexivity.
Qed.

Lemma str_lt_irrefl (a : string) : String.compare a a <> Lt.
Proof.
  assert (H : String.compare a a = Eq)
    by now apply OrderedTypeEx.String_as_OT.cmp_eq.
  rewrite H. discriminate.
Qed.

Local Open Scope Q_scope.

Lemma entry_ltb_false_ge (a b : entry) :
  entry_ltb a b = false <-> entry_ge a b.
Proof.
  unfold entry_ltb, entry_ge.
  destruct (Qcompare_spec (e_score a) (e_score b)) as [Hs|Hs|Hs].
  - destruct (String.compare (e_path a) (e_path b)) eqn:Hp.
    + apply String.compare_eq_iff in Hp.
      destruct (String.compare (e_style a) (e_style b)) eqn:Ht.
      * apply String.compare_eq_iff in Ht. split; [|reflexivity].
        intros _. right. split; [exact Hs|]. right. split; [exact Hp|].
        now right.
      * split; [discriminate|].
        intros [H|[_ [H|[_ [H|H]]]]].
        -- rewrite Hs in H. now apply Qlt_irrefl in H.
        -- rewrite Hp in H. now apply str_lt_irrefl in H.
        -- pose proof (str_lt_trans _ _ _ Ht H) as C.
           now apply str_lt_irrefl in C.
        -- rewrite H in Ht. now apply str_lt_irrefl in Ht.
      * split; [|reflexivity].
        intros _. right. split; [exact Hs|]. right. split; [exact Hp|].
        left. now apply str_gt_lt.
    + split; [discriminate|].
      intros [H|[_ [H|[H _]]]].
      * rewrite Hs in H. now apply Qlt_irrefl in H.
      * pose proof (str_lt_trans _ _ _ Hp H) as C.
        now apply str_lt_irrefl in C.
      * rewrite H in Hp. now apply str_lt_irrefl in Hp.
    + split; [|reflexivity].
      intros _. right. split; [exact Hs|]. left. now apply str_gt_lt.
  - split; [discriminate|].
    intros [H|[H _]].
    + exfalso. exact (Qlt_irrefl _ (Qlt_trans _ _ _ Hs H)).
    + rewrite H in Hs. now apply Qlt_irrefl in Hs.
  - split; [|reflexivity]. intros _. now left.
Qed.

Lemma entry_ge_trans (a b c : entry) :
  entry_ge a b -> entry_ge b c -> entry_ge a c.
Proof.
  unfold entry_ge.
  intros [Hab|[Hab Pab]] [Hbc|[Hbc Pbc]].
  - left. now apply Qlt_trans with (e_score b).
  - left. now rewrite <- Hbc.
  - left. now rewrite Hab.
  - right. split; [now rewrite Hab|].
    destruct Pab as [Pab|[Pab Sab]], Pbc as [Pbc|[Pbc Sbc]].
    + left. exact (str_lt_trans _ _ _ Pbc Pab).
    + left. now rewrite <- Pbc.
    + left. now rewrite Pab.
    + right. split; [congruence|].
      destruct Sab as [Sab|Sab], Sbc as [Sbc|Sbc].
      * left. exact (str_lt_trans _ _ _ Sbc Sab).
      * left. now rewrite <- Sbc.
      * left. now rewrite Sab.
      * right. congruence.
Qed.

Lemma entry_ltb_asym (a b : entry) :
  entry_ltb b a = true -> entry_ltb a b = false.
Proof.
  intros H. apply entry_ltb_false_ge.
  unfold entry_ltb in H. unfold entry_ge.
  destruct (Qcompare_spec (e_score b) (e_score a)) as [Hs|Hs|Hs];
    try discriminate; [|now left].
  right. split; [now symmetry|].
  destruct (String.compare (e_path b) (e_path a)) eqn:Hp;
    try discriminate; [|now left].
  apply String.compare_eq_iff in Hp.
  right. split; [now symmetry|].
  destruct (String.compare (e_style b) (e_style a)) eqn:Ht;
    try discriminate.
  now left.
Qed.

Lemma sort_reverse_sorted (chosen : list entry) :
  StronglySorted entry_ge (sort_reverse chosen).
Proof.
  assert (H : StronglySorted (fun a b => entry_ltb a b = false)
                (sort_reverse chosen)).
  { unfold sort_reverse.
    apply (sort_by_sorted (fun y x => entry_ltb x y)).
    - intros a b. apply entry_ltb_asym.
    - intros a b c Hab Hbc. apply entry_ltb_false_ge.
      apply entry_ge_trans with b; now apply entry_ltb_false_ge. }
  induction H as [|a l Hl IH Ha]; constructor; [exact IH|].
  eapply Forall_impl; [|exact Ha].
  intros b. apply entry_ltb_false_ge.
Qed.

Lemma entry_ge_score (a b : entry) : entry_ge a b -> e_score b <= e_score a.
Proof.
  intros [H|[H _]]; [now apply Qlt_le_weak | rewrite H; apply Qle_refl].
Qed.

(** ** [recommend]: the order of the result *)

(** C2 (amended).  Whenever [recommend] returns, the gallery it returns is
    the projection of the [chosen] list sorted by the tuple order of
    Python: by combined score descending, entries of equal score by
    [local_path] descending, then by [style] descending.  The sorted list
    is a rearrangement of the accepted candidates; the rank of a candidate
    in the similarity search plays no part in the order. *)
Theorem recommend_sorted_by_tuple {F} (index : IndexFlatIP Q)
    (items : list (item F)) (trends : list trend) (q : list Q)
    (styles : list string) (k : Z) (l : list entry) :
  ranked index items trends q styles k = Ok l ->
  recommend index items trends q styles k = Ok (map e_path l, map e_style l)
  /\ StronglySorted entry_ge l
  /\ StronglySorted (fun a b => e_score b <= e_score a) l
  /\ exists pool chosen,
       search index q (k * 5)%Z = Ok pool
       /\ walk items (latest_of trends) styles k pool [] = Ok chosen
       /\ Permutation chosen l.
Proof.
  intros H. split; [unfold recommend; rewrite H; reflexivity|].
  unfold ranked in H.
  apply bind_Ok in H. destruct H as (pool & Hpool & H).
  apply bind_Ok in H. destruct H as (chosen & Hchosen & H).
  injection H as <-.
  pose proof (sort_reverse_sorted chosen) as Hs.
  split; [exact Hs|]. split.
  - induction Hs as [|a l' Hl IH Ha]; constructor; [exact IH|].
    eapply Forall_impl; [|exact Ha]. intros b. apply entry_ge_score.
  - exists pool, chosen. repeat split; try assumption.
    apply Permutation_sym. unfold sort_reverse. apply sort_by_perm.
Qed.

Lemma recommend_sorted_by_tuple_witness :
  ranked Scenario.tie_index Scenario.tie_items Scenario.tie_trends
    Scenario.tie_query [] 2 = Ok Scenario.tie_ranked
  /\ StronglySorted entry_ge Scenario.tie_ranked.
Proof.
  split; [vm_compute; reflexivity|].
  apply (recommend_sorted_by_tuple Scenario.tie_index Scenario.tie_items
           Scenario.tie_trends Scenario.tie_query [] 2 Scenario.tie_ranked).
  vm_compute. reflexivity.
Defined.

(** C2, as stated, fails.  The query's nearest neighbour [a.jpg] (rank 0,
    similarity 1) and the trend-boosted [b.jpg] (rank 1, similarity 0,
    boost 0.25 * 4) have the same combined score; [recommend] returns
    [b.jpg] first, against the rank and against ascending identifiers. *)
Lemma recommend_tie_not_by_rank :
  search Scenario.tie_index Scenario.tie_query (2 * 5)%Z
    = Ok ((0%Z, 1) :: (1%Z, 0) :: repeat padding 8)
  /\ iloc Scenario.tie_items 0%Z
      = Ok (Scenario.photo "data/images/a.jpg" "formal" [1; 0])
  /\ iloc Scenario.tie_items 1%Z
      = Ok (Scenario.photo "data/images/b.jpg" "grunge" [0; 1])
  /\ ranked Scenario.tie_index Scenario.tie_items Scenario.tie_trends
       Scenario.tie_query [] 2
     = Ok [(4 # 4, "data/images/b.jpg", "grunge");
           (4 # 4, "data/images/a.jpg", "formal")]%string
  /\ recommend Scenario.tie_index Scenario.tie_items Scenario.tie_trends
       Scenario.tie_query [] 2
     = Ok (["data/images/b.jpg"; "data/images/a.jpg"],
           ["grunge"; "formal"])%string
  /\ String.compare "data/images/a.jpg" "data/images/b.jpg" = Lt.
Proof.
  repeat split; vm_compute; reflexivity.
Qed.

(** ** [recommend]: arguments and the empty index *)

(** C4 (amended).  [recommend] does not validate [k].  For every [k <= 0]
    the call fails with the [AssertionError] of the argument checks at the
    head of [index.search], its first operation on the index: no vector is
    scored and no table is read. *)
Theorem recommend_nonpositive_k {F} (index : IndexFlatIP Q)
    (items : list (item F)) (trends : list trend) (q : list Q)
    (styles : list string) (k : Z) :
  (k <= 0)%Z ->
  search index q (k * 5)%Z = Raise AssertionError
  /\ recommend index items trends q styles k = Raise AssertionError.
Proof.
  intros Hk.
  assert (Hs : search index q (k * 5)%Z = Raise AssertionError).
  { unfold search.
    destruct (negb (List.length q =? d index)%nat); [reflexivity|].
    destruct (Z.leb_spec (k * 5) 0); [reflexivity | lia]. }
  split; [exact Hs|].
  unfold recommend, ranked. rewrite Hs. reflexivity.
Qed.

Lemma recommend_nonpositive_k_witness :
  (0 <= 0)%Z
  /\ recommend Scenario.tie_index Scenario.tie_items Scenario.tie_trends
       Scenario.tie_query [] 0 = Raise AssertionError.
Proof.
  split; [lia|].
  apply (recommend_nonpositive_k Scenario.tie_index Scenario.tie_items
           Scenario.tie_trends Scenario.tie_query [] 0).
  lia.
Defined.

(** C4, as stated, fails: with [k = 0] the error is not an
    [InvalidArgumentError]. *)
Lemma recommend_zero_k_not_invalid_argument :
  recommend Scenario.tie_index Scenario.tie_items Scenario.tie_trends
    Scenario.tie_query [] 0 <> Raise InvalidArgumentError.
Proof.
  vm_compute. discriminate.
Qed.

(** C3.  Against an index without vectors, a catalogue without rows, no
    filter and the default [k = 24], [recommend] raises [IndexError]: the
    search result is all padding and [iloc] finds no row for label [-1].
    Against the same index and a catalogue with rows it returns the last
    row [k] times over.  [build_faiss] itself writes no index for a
    catalogue without rows, and without an index file the application
    does not load. *)
Theorem recommend_empty_index_raises :
  search Scenario.empty_index Scenario.tie_query (24 * 5)%Z
    = Ok (repeat padding 120)
  /\ recommend Scenario.empty_index Scenario.empty_items [] Scenario.tie_query
       [] 24 = Raise IndexError
  /\ recommend Scenario.empty_index Scenario.tie_items [] Scenario.tie_query
       [] 24
     = Ok (repeat "data/images/b.jpg"%string 24, repeat "grunge"%string 24)
  /\ build_faiss [] None = Ok None
  /\ read_index (@None (IndexFlatIP Q)) = Raise RuntimeError.
Proof.
  repeat split; vm_compute; reflexivity.
Qed.

(** ** [recommend]: the walk over the candidate pool *)

Lemma skipped_allowed {F} (styles : list string) (row : item F) :
  skipped styles (style row) = negb (allowed styles row).
Proof.
  unfold skipped, allowed. now destruct styles.
Qed.

(** Every entry the walk adds is the entry of a candidate of the pool. *)
Lemma walk_entries {F} (items : list (item F)) (latest : dict Q)
    (styles : list string) (k : Z) (P : entry -> Prop) :
  forall pool chosen0 chosen,
    (forall idx dist row,
        In (idx, dist) pool -> iloc items idx = Ok row ->
        P (entry_of latest (dist, row))) ->
    Forall P chosen0 ->
    walk items latest styles k pool chosen0 = Ok chosen ->
    Forall P chosen.
Proof.
  induction pool as [|[idx dist] pool IH]; intros chosen0 chosen HP H0 Hw.
  - simpl in Hw. now injection Hw as <-.
  - simpl in Hw. apply bind_Ok in Hw. destruct Hw as (row & Hrow & Hw).
    assert (HP' : forall idx' dist' row',
               In (idx', dist') pool -> iloc items idx' = Ok row' ->
               P (entry_of latest (dist', row'))).
    { intros ? ? ? Hin. apply HP. now right. }
    destruct (skipped styles (style row)).
    + now apply (IH chosen0).
    + assert (H1 : Forall P (chosen0 ++ [entry_of latest (dist, row)])).
      { apply Forall_app. split; [exact H0|].
        constructor; [|constructor]. apply (HP idx); [now left | exact Hrow]. }
      unfold entry_of in H1. simpl in H1.
      match type of Hw with
      | (if ?c then _ else _) = _ => destruct c
      end.
      * now injection Hw as <-.
      * now apply IH in Hw.
Qed.

(** The walk, when every label of the pool stands for a row: the entries
    of the allowed candidates in pool order, until [k] are chosen. *)
Lemma walk_firstn {F} (items : list (item F)) (latest : dict Q)
    (styles : list string) (k : Z) :
  forall pool rows chosen0,
    resolves items pool rows ->
    (Z.of_nat (List.length chosen0) < k)%Z ->
    walk items latest styles k pool chosen0
    = Ok (chosen0 ++
          firstn (Z.to_nat k - List.length chosen0)
            (map (entry_of latest) (passing styles pool rows))).
Proof.
  intros pool rows chosen0 Hres. revert chosen0.
  induction Hres as [|[idx dist] row pool rows Hrow Hres IH];
    intros chosen0 Hlt.
  - simpl. now rewrite firstn_nil, app_nil_r.
  - simpl in Hrow. unfold passing. simpl. rewrite Hrow. simpl.
    rewrite (skipped_allowed styles row).
    destruct (allowed styles row) eqn:Ha; simpl.
    + rewrite length_app. simpl.
      destruct (Z.to_nat k - List.length chosen0)%nat as [|n] eqn:En;
        [exfalso; lia|].
      simpl.
      destruct (Z.leb_spec k (Z.of_nat (List.length chosen0 + 1))) as [Hk|Hk].
      * assert (n = 0)%nat as -> by lia. now rewrite firstn_O.
      * rewrite IH by (rewrite length_app; simpl; lia).
        unfold passing. rewrite <- app_assoc. simpl. rewrite length_app. simpl.
        replace (Z.to_nat k - (List.length chosen0 + 1))%nat with n by lia.
        reflexivity.
    + now apply IH.
Qed.

Lemma existsb_eqb_In (s : string) (l : list string) :
  existsb (String.eqb s) l = true <-> In s l.
Proof.
  rewrite existsb_exists. split.
  - intros (x & Hx & He). apply String.eqb_eq in He. now subst.
  - intros H. exists s. split; [exact H | apply String.eqb_refl].
Qed.

(** ** The search result and the catalogue *)

Lemma iloc_nat {A} (rows : list A) (i : nat) (r : A) :
  nth_error rows i = Some r -> iloc rows (Z.of_nat i) = Ok r.
Proof.
  intros H.
  assert (Hi : (i < List.length rows)%nat)
    by (apply nth_error_Some; congruence).
  unfold iloc.
  destruct (Z.ltb_spec (Z.of_nat i) 0) as [C|_]; [lia|].
  destruct (Z.ltb_spec (Z.of_nat i) 0) as [C|_]; [lia|].
  destruct (Z.leb_spec (Z.of_nat (List.length rows)) (Z.of_nat i)) as [C|_];
    [lia|].
  simpl. now rewrite Nat2Z.id, H.
Qed.

Lemma iloc_last {A} (init : list A) (r : A) :
  iloc (init ++ [r]) (-1)%Z = Ok r.
Proof.
  unfold iloc. rewrite last_length.
  change ((-1 <? 0)%Z) with true. cbv iota.
  replace (-1 + Z.of_nat (S (List.length init)))%Z
    with (Z.of_nat (List.length init)) by lia.
  destruct (Z.ltb_spec (Z.of_nat (List.length init)) 0) as [C|_]; [lia|].
  destruct (Z.leb_spec (Z.of_nat (S (List.length init)))
              (Z.of_nat (List.length init))) as [C|_]; [lia|].
  simpl. rewrite Nat2Z.id, nth_error_app2, Nat.sub_diag by lia.
  reflexivity.
Qed.

Lemma enumerate_resolves {F} (items : list (item F)) :
  forall (suf pre : list (item F)) (scores : list Q),
    items = pre ++ suf ->
    List.length scores = List.length suf ->
    resolves items (enumerate_from (Z.of_nat (List.length pre)) scores) suf.
Proof.
  induction suf as [|r suf IH]; intros pre scores Hi Hl;
    destruct scores as [|s scores]; try discriminate; simpl.
  - constructor.
  - constructor.
    + simpl. apply iloc_nat. subst items.
      now rewrite nth_error_app2, Nat.sub_diag by lia.
    + replace (Z.of_nat (List.length pre) + 1)%Z
        with (Z.of_nat (List.length (pre ++ [r])))
        by (rewrite last_length; lia).
      apply IH; [|now injection Hl].
      now rewrite <- app_assoc.
Qed.

Lemma enumerate_length {A} (l : list A) (i : Z) :
  List.length (enumerate_from i l) = List.length l.
Proof.
  revert i. induction l as [|a l IH]; intros i; simpl;
    [reflexivity | now rewrite IH].
Qed.

(** *** The result heap of a search *)

Lemma score_gtb_true (y x : Z * Q) :
  score_gtb y x = true <-> snd x < snd y.
Proof.
  unfold score_gtb. rewrite negb_true_iff. split.
  - intros H. apply Qnot_le_lt. intros C. apply Qle_bool_iff in C.
    congruence.
  - intros H. destruct (Qle_bool (snd y) (snd x)) eqn:E; [|reflexivity].
    apply Qle_bool_iff in E. exfalso. exact (Qlt_not_le _ _ H E).
Qed.

Lemma heap_gtb_true (y x : Z * Q) :
  heap_gtb y x = true
  <-> snd x < snd y \/ (snd y == snd x /\ (fst x < fst y)%Z).
Proof.
  unfold heap_gtb.
  rewrite orb_true_iff, andb_true_iff, score_gtb_true, Qeq_bool_iff,
    Z.ltb_lt.
  tauto.
Qed.

Lemma heap_gtb_false (y x : Z * Q) :
  heap_gtb y x = false
  <-> snd y < snd x \/ (snd y == snd x /\ (fst y <= fst x)%Z).
Proof.
  split.
  - intros H.
    destruct (Qlt_le_dec (snd y) (snd x)) as [L|L]; [now left|]. right.
    assert (N : ~ snd x < snd y).
    { intros C. assert (T : heap_gtb y x = true)
        by (apply heap_gtb_true; now left). congruence. }
    assert (E : snd y == snd x)
      by (apply Qle_antisym; [now apply Qnot_lt_le | exact L]).
    split; [exact E|].
    destruct (Z.le_gt_cases (fst y) (fst x)) as [G|G]; [exact G|].
    exfalso. assert (T : heap_gtb y x = true)
      by (apply heap_gtb_true; right; split; [exact E | lia]).
    congruence.
  - intros H. destruct (heap_gtb y x) eqn:E; [|reflexivity].
    apply heap_gtb_true in E. exfalso.
    destruct H as [H|[H1 H2]], E as [E|[E1 E2]]; try lra; lia.
Qed.

Lemma heap_gtb_asym (a b : Z * Q) :
  heap_gtb a b = true -> heap_gtb b a = false.
Proof.
  rewrite heap_gtb_true, heap_gtb_false.
  intros [H|[H1 H2]]; [now left|]. right. split; [now symmetry | lia].
Qed.

Lemma heap_gtb_trans (a b c : Z * Q) :
  heap_gtb b a = false -> heap_gtb c b = false -> heap_gtb c a = false.
Proof.
  rewrite !heap_gtb_false.
  intros [H|[H1 H2]] [G|[G1 G2]].
  - left. lra.
  - left. lra.
  - left. lra.
  - right. split; [lra | lia].
Qed.

Lemma heap_gtb_false_le (a b : Z * Q) :
  heap_gtb b a = false -> snd b <= snd a.
Proof.
  rewrite heap_gtb_false. intros [H|[H _]]; lra.
Qed.

Lemma heap_sorted_scores (l : list (Z * Q)) :
  StronglySorted (fun a b => heap_gtb b a = false) l ->
  StronglySorted (fun a b => snd b <= snd a) l.
Proof.
  induction 1 as [|a l Hl IH Ha]; constructor; [exact IH|].
  eapply Forall_impl; [|exact Ha]. intros b. apply heap_gtb_false_le.
Qed.

Lemma StronglySorted_removelast {A} (R : A -> A -> Prop) (l : list A) :
  StronglySorted R l -> StronglySorted R (removelast l).
Proof.
  induction 1 as [|a l Hl IH Ha]; simpl; [constructor|].
  destruct l as [|b l]; [constructor|].
  constructor; [exact IH|].
  rewrite Forall_forall in Ha |- *. intros x Hx. apply Ha.
  rewrite (app_removelast_last b (l := b :: l)) by discriminate.
  apply in_or_app. now left.
Qed.

Lemma StronglySorted_snoc {A} (R : A -> A -> Prop) (l : list A) (m : A) :
  StronglySorted R (l ++ [m]) -> Forall (fun c => R c m) l.
Proof.
  induction l as [|a l IH]; simpl; intros H; [constructor|].
  inversion H as [|? ? Hl Ha]; subst. constructor; [|now apply IH].
  rewrite Forall_forall in Ha. apply Ha. apply in_or_app. right. now left.
Qed.

Lemma insert_by_length {A} (before : A -> A -> bool) (x : A) (l : list A) :
  List.length (insert_by before x l) = S (List.length l).
Proof.
  exact (Permutation_length (insert_by_perm before x l)).
Qed.

(** One step of the heap: the entries kept stay in order, they are at most
    [n], nothing is left out while there is a free place, and nothing that
    is left out is more similar than an entry kept. *)
Lemma add_result_inv (n : nat) (kept rest : list (Z * Q)) (e : Z * Q) :
  (0 < n)%nat ->
  StronglySorted (fun a b => heap_gtb b a = false) kept ->
  (List.length kept <= n)%nat ->
  ((List.length kept < n)%nat -> rest = []) ->
  Forall (fun r => Forall (fun c => snd r <= snd c) kept) rest ->
  exists rest',
    StronglySorted (fun a b => heap_gtb b a = false) (add_result n kept e)
    /\ (List.length (add_result n kept e) <= n)%nat
    /\ ((List.length (add_result n kept e) < n)%nat -> rest' = [])
    /\ Forall (fun r => Forall (fun c => snd r <= snd c)
                          (add_result n kept e)) rest'
    /\ Permutation (add_result n kept e ++ rest') ((kept ++ rest) ++ [e]).
Proof.
  intros Hn Hs Hlen Hfree Hrest. unfold add_result.
  destruct (Nat.ltb_spec (List.length kept) n) as [Hlt|Hge].
  - rewrite (Hfree Hlt). exists []. split.
    { apply insert_by_sorted;
        [intros a b; apply heap_gtb_asym
        | intros a b c; apply heap_gtb_trans | exact Hs]. }
    rewrite insert_by_length. split; [lia|]. split; [reflexivity|].
    split; [constructor|].
    rewrite !app_nil_r.
    eapply perm_trans; [apply insert_by_perm|].
    apply Permutation_cons_append.
  - assert (Hne : kept <> []).
    { intros ->. simpl in Hge. lia. }
    pose proof (app_removelast_last e Hne) as Hk.
    set (m := last kept e) in *. set (init := removelast kept) in *.
    assert (Hinit : StronglySorted (fun a b => heap_gtb b a = false) init)
      by now apply StronglySorted_removelast.
    assert (Hmin : Forall (fun c => snd m <= snd c) kept).
    { rewrite Hk in Hs |- *. apply Forall_app. split.
      - eapply Forall_impl; [|exact (StronglySorted_snoc _ _ _ Hs)].
        intros c. apply heap_gtb_false_le.
      - constructor; [apply Qle_refl | constructor]. }
    assert (Hli : List.length init = (n - 1)%nat).
    { pose proof (f_equal (@List.length _) Hk) as E.
      rewrite last_length in E. lia. }
    assert (Hsub : forall c, In c init -> In c kept).
    { intros c Hc. rewrite Hk. apply in_or_app. now left. }
    destruct (score_gtb e m) eqn:Eg.
    + apply score_gtb_true in Eg. exists (m :: rest). split.
      { apply insert_by_sorted;
          [intros a b; apply heap_gtb_asym
          | intros a b c; apply heap_gtb_trans | exact Hinit]. }
      rewrite insert_by_length. split; [lia|].
      split; [intros C; exfalso; lia|]. split.
      * assert (Hall : forall r : Z * Q, snd r <= snd m ->
                  Forall (fun c => snd r <= snd c)
                    (insert_by heap_gtb e init)).
        { intros r Hr.
          eapply Permutation_Forall;
            [apply Permutation_sym, insert_by_perm|].
          constructor; [lra|].
          rewrite Forall_forall in Hmin |- *. intros c Hc.
          specialize (Hmin c (Hsub c Hc)). lra. }
        constructor; [apply Hall, Qle_refl|].
        rewrite Forall_forall in Hrest |- *. intros r Hr. apply Hall.
        specialize (Hrest r Hr). rewrite Forall_forall in Hrest.
        apply Hrest. rewrite Hk. apply in_or_app. right. now left.
      * rewrite Hk.
        eapply perm_trans;
          [apply Permutation_app_tail, insert_by_perm|].
        simpl. rewrite <- !app_assoc. simpl.
        eapply perm_trans; [apply Permutation_cons_append|].
        rewrite <- app_assoc. apply Permutation_app_head.
        simpl. apply Permutation_refl.
    + assert (Eg' : snd e <= snd m).
      { unfold score_gtb in Eg. apply negb_false_iff in Eg.
        now apply Qle_bool_iff. }
      exists (rest ++ [e]). split; [exact Hs|]. split; [exact Hlen|].
      split; [intros C; exfalso; lia|]. split.
      * apply Forall_app. split; [exact Hrest|].
        constructor; [|constructor].
        eapply Forall_impl; [|exact Hmin]. intros c Hc. cbv beta in *. lra.
      * rewrite app_assoc. apply Permutation_refl.
Qed.

Lemma knn_fold_inv (n : nat) :
  (0 < n)%nat ->
  forall (l kept rest : list (Z * Q)),
    StronglySorted (fun a b => heap_gtb b a = false) kept ->
    (List.length kept <= n)%nat ->
    ((List.length kept < n)%nat -> rest = []) ->
    Forall (fun r => Forall (fun c => snd r <= snd c) kept) rest ->
    exists rest',
      StronglySorted (fun a b => heap_gtb b a = false)
        (fold_left (add_result n) l kept)
      /\ (List.length (fold_left (add_result n) l kept) <= n)%nat
      /\ ((List.length (fold_left (add_result n) l kept) < n)%nat ->
          rest' = [])
      /\ Forall (fun r => Forall (fun c => snd r <= snd c)
                            (fold_left (add_result n) l kept)) rest'
      /\ Permutation (fold_left (add_result n) l kept ++ rest')
           ((kept ++ rest) ++ l).
Proof.
  intros Hn. induction l as [|e l IH]; intros kept rest Hs Hlen Hfree Hrest.
  - exists rest. simpl. rewrite app_nil_r. repeat split; auto.
  - destruct (add_result_inv n kept rest e Hn Hs Hlen Hfree Hrest)
      as (rest1 & Hs1 & Hlen1 & Hfree1 & Hrest1 & Hp1).
    destruct (IH _ rest1 Hs1 Hlen1 Hfree1 Hrest1)
      as (rest' & Hs' & Hlen' & Hfree' & Hrest' & Hp').
    exists rest'. simpl. repeat split; auto.
    eapply perm_trans; [exact Hp'|].
    replace ((kept ++ rest) ++ e :: l) with (((kept ++ rest) ++ [e]) ++ l)
      by (rewrite <- !app_assoc; reflexivity).
    now apply Permutation_app_tail.
Qed.

(** The entries a search keeps: in the order of the heap, as many as there
    are places or vectors, and with the rest they make up the scored
    vectors, none of the rest being more similar than an entry kept. *)
Lemma knn_spec (n : nat) (l : list (Z * Q)) :
  (0 < n)%nat ->
  exists rest,
    StronglySorted (fun a b => heap_gtb b a = false) (knn n l)
    /\ List.length (knn n l) = Nat.min n (List.length l)
    /\ Forall (fun r => Forall (fun c => snd r <= snd c) (knn n l)) rest
    /\ Permutation (knn n l ++ rest) l.
Proof.
  intros Hn.
  destruct (knn_fold_inv n Hn l [] []) as (rest & Hs & Hlen & Hfree & Hr & Hp);
    try (constructor || (simpl; lia) || reflexivity).
  fold (knn n l) in *. simpl in Hp.
  exists rest. split; [exact Hs|]. split; [|split; [exact Hr | exact Hp]].
  pose proof (Permutation_length Hp) as E. rewrite length_app in E.
  destruct (Nat.lt_ge_cases (List.length (knn n l)) n) as [C|C].
  - rewrite (Hfree C) in E. simpl in E. lia.
  - lia.
Qed.

Lemma knn_length (n : nat) (l : list (Z * Q)) :
  (0 < n)%nat -> List.length (knn n l) = Nat.min n (List.length l).
Proof.
  intros Hn. destruct (knn_spec n l Hn) as (_ & _ & H & _). exact H.
Qed.

Lemma enumerate_In {A} (l : list A) :
  forall (i0 : Z) (c : Z * A),
    In c (enumerate_from i0 l)
    <-> (i0 <= fst c)%Z /\ nth_error l (Z.to_nat (fst c - i0)) = Some (snd c).
Proof.
  induction l as [|a l IH]; intros i0 [i x]; simpl.
  - split; [intros [] | intros [_ H]].
    now destruct (Z.to_nat (i - i0)).
  - rewrite IH. simpl. split.
    + intros [E|[Hi Hn]].
      * injection E as <- <-. split; [lia|]. now rewrite Z.sub_diag.
      * split; [lia|].
        replace (Z.to_nat (i - i0)) with (S (Z.to_nat (i - (i0 + 1))))
          by lia.
        exact Hn.
    + intros [Hi Hn]. destruct (Z.eq_dec i i0) as [->|Hne].
      * left. rewrite Z.sub_diag in Hn. simpl in Hn. now injection Hn as ->.
      * right. split; [lia|].
        replace (Z.to_nat (i - i0)) with (S (Z.to_nat (i - (i0 + 1))))
          in Hn by lia.
        exact Hn.
Qed.

Lemma enumerate_NoDup {A} (l : list A) :
  forall i0 : Z, NoDup (map fst (enumerate_from i0 l)).
Proof.
  induction l as [|a l IH]; intros i0; simpl; constructor; [|apply IH].
  intros C. apply in_map_iff in C. destruct C as (c & E & Hc).
  apply enumerate_In in Hc. lia.
Qed.

Lemma knn_nearest (index : IndexFlatIP Q) (q : list Q) (n : nat) :
  (0 < n)%nat ->
  nearest index q (knn n (enumerate_from 0%Z (map (inner q) (xb index)))).
Proof.
  intros Hn.
  set (scored := enumerate_from 0%Z (map (inner q) (xb index))).
  destruct (knn_spec n scored Hn) as (rest & Hs & _ & Hr & Hp).
  assert (Hin : forall c, In c scored <->
             (0 <= fst c)%Z
             /\ exists x, nth_error (xb index) (Z.to_nat (fst c)) = Some x
                          /\ snd c = inner q x).
  { intros c. unfold scored. rewrite enumerate_In, Z.sub_0_r.
    rewrite nth_error_map.
    destruct (nth_error (xb index) (Z.to_nat (fst c))) as [x|]; simpl.
    - split.
      + intros [H0 E]. injection E as E. split; [exact H0|]. eauto.
      + intros [H0 (x' & E & ->)]. injection E as ->. auto.
    - split; [intros [_ C]; discriminate|].
      intros [_ (x' & C & _)]. discriminate. }
  split; [|split; [|split]].
  - now apply heap_sorted_scores.
  - assert (Hnd : NoDup (map fst (knn n scored ++ rest))).
    { eapply Permutation_NoDup;
        [apply Permutation_map, Permutation_sym, Hp|].
      apply enumerate_NoDup. }
    rewrite map_app in Hnd. exact (NoDup_app_remove_r _ _ Hnd).
  - intros c Hc.
    assert (Hc' : In c scored).
    { eapply Permutation_in; [exact Hp|]. apply in_or_app. now left. }
    apply Hin in Hc'. destruct Hc' as (H0 & x & Hx & E). eauto.
  - intros i x Hx Hout c Hc.
    assert (Hi : In (Z.of_nat i, inner q x) scored).
    { apply Hin. simpl. split; [lia|]. rewrite Nat2Z.id. eauto. }
    apply (Permutation_in _ (Permutation_sym Hp)) in Hi.
    apply in_app_or in Hi. destruct Hi as [Hi|Hi].
    + exfalso. apply Hout. apply in_map_iff.
      exists (Z.of_nat i, inner q x). auto.
    + rewrite Forall_forall in Hr. specialize (Hr _ Hi).
      rewrite Forall_forall in Hr. exact (Hr c Hc).
Qed.

(** The entries kept of an index that has one vector per catalogue row:
    their labels stand for rows of the catalogue, each row at most
    once. *)
Lemma knn_resolves {F} (index : IndexFlatIP Q) (items : list (item F))
    (q : list Q) (n : nat) :
  (0 < n)%nat ->
  List.length (xb index) = List.length items ->
  exists rows rest,
    resolves items (knn n (enumerate_from 0%Z (map (inner q) (xb index))))
      rows
    /\ Permutation (rows ++ rest) items.
Proof.
  intros Hn Hl.
  assert (He : resolves items
                 (enumerate_from 0%Z (map (inner q) (xb index))) items).
  { apply (enumerate_resolves items items []); [reflexivity|].
    now rewrite length_map. }
  destruct (knn_spec n (enumerate_from 0%Z (map (inner q) (xb index))) Hn)
    as (rest_s & _ & _ & _ & Hp).
  destruct (Permutation_Forall2 (Permutation_sym Hp) He)
    as (rows' & Hp' & Hr').
  apply Forall2_app_inv_l in Hr'.
  destruct Hr' as (rows & rest & Hr & _ & ->).
  exists rows, rest. split; [exact Hr | now apply Permutation_sym].
Qed.

Lemma search_Ok (index : IndexFlatIP Q) (q : list Q) (n : Z) :
  List.length q = d index ->
  (1 <= n)%Z ->
  search index q n
  = Ok (let top := knn (Z.to_nat n)
                     (enumerate_from 0%Z (map (inner q) (xb index))) in
        top ++ repeat padding (Z.to_nat n - List.length top)).
Proof.
  intros Hq Hn. unfold search.
  rewrite Hq, Nat.eqb_refl. simpl negb. cbv iota.
  destruct (Z.leb_spec n 0) as [C|_]; [lia|]. reflexivity.
Qed.

Lemma search_Ok_inv (index : IndexFlatIP Q) (q : list Q) (n : Z)
    (pool : list (Z * Q)) :
  search index q n = Ok pool ->
  List.length q = d index /\ (1 <= n)%Z
  /\ List.length pool = Z.to_nat n.
Proof.
  unfold search.
  destruct (Nat.eqb_spec (List.length q) (d index)) as [Hq|Hq];
    simpl; [|discriminate].
  destruct (Z.leb_spec n 0) as [Hn|Hn]; [discriminate|].
  intros H. injection H as <-.
  split; [exact Hq|]. split; [lia|].
  rewrite length_app, repeat_length, knn_length by lia.
  lia.
Qed.

(** ** [recommend]: the pool and the filter *)

(** C6.  The candidate pool is the search result: nearest neighbours of
    the query in similarity order, the most similar first, followed by
    padding when the index holds fewer vectors than the pool has places.
    When every label of the pool stands for a catalogue row, the accepted
    list is made of the candidates that pass the filter, taken in pool
    order and cut after the first [k]: a candidate outside a non-empty
    filter is skipped and does not count, and the walk ends with the [k]-th
    accepted candidate or with the pool.  With an empty filter every
    candidate passes; with a filter that holds the category of no candidate
    of the pool the result is empty. *)
Theorem recommend_walk_filter {F} (index : IndexFlatIP Q)
    (items : list (item F)) (trends : list trend) (q : list Q)
    (styles : list string) (k : Z) (pool : list (Z * Q))
    (rows : list (item F)) :
  (1 <= k)%Z ->
  search index q (k * 5)%Z = Ok pool ->
  resolves items pool rows ->
  (exists real,
      pool = real ++ repeat padding (Z.to_nat (k * 5) - List.length real)
      /\ nearest index q real)
  /\ walk items (latest_of trends) styles k pool []
     = Ok (firstn (Z.to_nat k)
             (map (entry_of (latest_of trends)) (passing styles pool rows)))
  /\ ranked index items trends q styles k
     = Ok (sort_reverse
             (firstn (Z.to_nat k)
                (map (entry_of (latest_of trends))
                   (passing styles pool rows))))
  /\ (styles = [] ->
      passing styles pool rows = combine (map snd pool) rows)
  /\ (styles <> [] ->
      Forall (fun row => ~ In (style row) styles) rows ->
      passing styles pool rows = []
      /\ recommend index items trends q styles k = Ok ([], [])).
Proof.
  intros Hk Hpool Hres.
  assert (Hw : walk items (latest_of trends) styles k pool []
               = Ok (firstn (Z.to_nat k)
                       (map (entry_of (latest_of trends))
                          (passing styles pool rows)))).
  { rewrite (walk_firstn items (latest_of trends) styles k pool rows []
               Hres) by (simpl; lia).
    simpl. now rewrite Nat.sub_0_r. }
  assert (Hr : ranked index items trends q styles k
               = Ok (sort_reverse
                       (firstn (Z.to_nat k)
                          (map (entry_of (latest_of trends))
                             (passing styles pool rows))))).
  { unfold ranked. rewrite Hpool. simpl. rewrite Hw. reflexivity. }
  split.
  { destruct (search_Ok_inv _ _ _ _ Hpool) as (Hq & Hn & _).
    rewrite (search_Ok index q (k * 5)%Z Hq Hn) in Hpool.
    injection Hpool as <-. eexists. split; [reflexivity|].
    apply knn_nearest. lia. }
  split; [exact Hw|]. split; [exact Hr|]. split.
  - intros ->. unfold passing. simpl.
    induction (combine (map snd pool) rows) as [|c l IH]; simpl;
      [reflexivity | now rewrite IH].
  - intros Hne Hall.
    assert (Hp : passing styles pool rows = []).
    { unfold passing.
      assert (Hin : forall c, In c (combine (map snd pool) rows) ->
                              allowed styles (snd c) = false).
      { intros [dist row] Hc. apply in_combine_r in Hc.
        rewrite Forall_forall in Hall. specialize (Hall row Hc).
        unfold allowed. simpl. destruct styles as [|s styles];
          [now elim Hne|].
        destruct (existsb (String.eqb (style row)) (s :: styles)) eqn:E;
          [|reflexivity].
        apply existsb_eqb_In in E. now elim Hall. }
      induction (combine (map snd pool) rows) as [|c l IH]; simpl;
        [reflexivity|].
      rewrite (Hin c) by now left.
      apply IH. intros c' Hc'. apply Hin. now right. }
    split; [exact Hp|].
    unfold recommend. rewrite Hr, Hp. simpl. now rewrite firstn_nil.
Qed.

Lemma recommend_walk_filter_witness :
  (exists real,
      Scenario.near_pool
      = real ++ repeat padding (Z.to_nat (1 * 5) - List.length real)
      /\ nearest Scenario.near_index [1; 0] real)
  /\ map fst Scenario.near_pool = [1; 2; 0; 3; 5]%Z
  /\ walk Scenario.near_items (latest_of []) ["formal"%string] 1
       Scenario.near_pool []
     = Ok [(80 # 100, "c.jpg", "formal")]%string
  /\ recommend Scenario.near_index Scenario.near_items [] [1; 0]
       ["formal"%string] 1
     = Ok (["c.jpg"], ["formal"])%string.
Proof.
  destruct (recommend_walk_filter Scenario.near_index Scenario.near_items
              [] [1; 0] ["formal"%string] 1
              Scenario.near_pool Scenario.near_rows) as (H1 & _).
  - lia.
  - reflexivity.
  - unfold resolves. repeat constructor.
  - split; [exact H1|]. repeat split; vm_compute; reflexivity.
Defined.

Lemma Forall2_repeat {A B} (R : A -> B -> Prop) (a : A) (b : B) (n : nat) :
  R a b -> Forall2 R (repeat a n) (repeat b n).
Proof.
  intros H. induction n; simpl; constructor; auto.
Qed.

Lemma filter_perm_length {A} (f : A -> bool) (l l' : list A) :
  Permutation l l' ->
  List.length (filter f l) = List.length (filter f l').
Proof.
  induction 1 as [|x l l' _ IH|x y l|l l' l'' _ IH1 _ IH2]; simpl.
  - reflexivity.
  - destruct (f x); simpl; now rewrite IH.
  - destruct (f x), (f y); reflexivity.
  - now rewrite IH1.
Qed.

Lemma passing_length {F} (styles : list string) (items : list (item F))
    (pool : list (Z * Q)) (rows : list (item F)) :
  resolves items pool rows ->
  List.length (passing styles pool rows)
  = List.length (filter (allowed styles) rows).
Proof.
  unfold passing. induction 1 as [|c row pool rows _ _ IH]; simpl.
  - reflexivity.
  - destruct (allowed styles row); simpl; now rewrite IH.
Qed.

Lemma passing_nil {F} (pool : list (Z * Q)) (rows : list (item F)) :
  passing [] pool rows = combine (map snd pool) rows.
Proof.
  unfold passing. simpl.
  induction (combine (map snd pool) rows) as [|c l IH]; simpl;
    [reflexivity | now rewrite IH].
Qed.

Lemma combine_app_eq {A B} (l1 l2 : list A) (r1 r2 : list B) :
  List.length l1 = List.length r1 ->
  combine (l1 ++ l2) (r1 ++ r2) = combine l1 r1 ++ combine l2 r2.
Proof.
  revert r1. induction l1 as [|a l1 IH]; intros [|b r1] H;
    try discriminate; simpl.
  - reflexivity.
  - rewrite IH; [reflexivity | now injection H].
Qed.

Lemma combine_repeat {A B} (a : A) (b : B) (n : nat) :
  combine (repeat a n) (repeat b n) = repeat (a, b) n.
Proof.
  induction n as [|n IH]; simpl; [reflexivity | now rewrite IH].
Qed.

Lemma firstn_repeat {A} (a : A) (m n : nat) :
  (m <= n)%nat -> firstn m (repeat a n) = repeat a m.
Proof.
  revert n. induction m as [|m IH]; intros [|n] H; simpl;
    try reflexivity; try lia.
  rewrite IH; [reflexivity | lia].
Qed.

(** ** [recommend]: more wanted than there is *)

(** C7 (amended).  If the pool size [k * 5] does not exceed the number of
    indexed vectors, one per catalogue row, and [k] is greater than the
    number of catalogue rows whose category passes the filter, then
    [recommend] returns without error, ranked, every passing candidate of
    the pool.  The pool holds [k * 5] nearest neighbours of the query, the
    most similar first, which stand for distinct rows of the catalogue.
    Passing rows outside the pool are not returned. *)
Theorem recommend_k_exceeds_matches {F} (index : IndexFlatIP Q)
    (items : list (item F)) (trends : list trend) (q : list Q)
    (styles : list string) (k : Z) :
  List.length (xb index) = List.length items ->
  List.length q = d index ->
  (k * 5 <= Z.of_nat (List.length items))%Z ->
  (Z.of_nat (List.length (filter (allowed styles) items)) < k)%Z ->
  exists pool rows rest,
    search index q (k * 5)%Z = Ok pool
    /\ List.length pool = Z.to_nat (k * 5)
    /\ nearest index q pool
    /\ resolves items pool rows
    /\ Permutation (rows ++ rest) items
    /\ ranked index items trends q styles k
       = Ok (sort_reverse
               (map (entry_of (latest_of trends))
                  (passing styles pool rows)))
    /\ StronglySorted entry_ge
         (sort_reverse
            (map (entry_of (latest_of trends)) (passing styles pool rows))).
Proof.
  intros Hl Hq Hn Hm.
  assert (Hk : (1 <= k)%Z) by lia.
  set (n := Z.to_nat (k * 5)).
  assert (Hn0 : (0 < n)%nat) by (unfold n; lia).
  destruct (knn_resolves index items q n Hn0 Hl)
    as (rows & rest & Hres & Hperm).
  pose proof (knn_nearest index q n Hn0) as Hnear.
  pose proof (knn_length n
                (enumerate_from 0%Z (map (inner q) (xb index))) Hn0) as Hlp.
  rewrite enumerate_length, length_map in Hlp.
  set (pool := knn n (enumerate_from 0%Z (map (inner q) (xb index)))) in *.
  assert (Hlp' : List.length pool = n) by (unfold n in *; lia).
  assert (Hs : search index q (k * 5)%Z = Ok pool).
  { rewrite search_Ok by (assumption || lia). cbv zeta. fold n pool.
    rewrite Hlp', Nat.sub_diag. simpl. now rewrite app_nil_r. }
  exists pool, rows, rest.
  split; [exact Hs|]. split; [exact Hlp'|]. split; [exact Hnear|].
  split; [exact Hres|]. split; [exact Hperm|].
  split; [|apply sort_reverse_sorted].
  unfold ranked. rewrite Hs. simpl.
  rewrite (walk_firstn items (latest_of trends) styles k _ _ [] Hres)
    by (simpl; lia).
  simpl. rewrite Nat.sub_0_r, firstn_all2; [reflexivity|].
  rewrite length_map, (passing_length styles items _ _ Hres).
  pose proof (filter_perm_length (allowed styles) _ _ Hperm) as E.
  rewrite filter_app, length_app in E. lia.
Qed.

Lemma recommend_k_exceeds_matches_witness :
  exists pool rows rest,
    search Scenario.far_index [0; 1] (2 * 5)%Z = Ok pool
    /\ List.length pool = Z.to_nat (2 * 5)
    /\ nearest Scenario.far_index [0; 1] pool
    /\ resolves Scenario.far_items pool rows
    /\ Permutation (rows ++ rest) Scenario.far_items
    /\ ranked Scenario.far_index Scenario.far_items [] [0; 1]
         ["vintage"%string] 2
       = Ok (sort_reverse
               (map (entry_of (latest_of []))
                  (passing ["vintage"%string] pool rows)))
    /\ StronglySorted entry_ge
         (sort_reverse
            (map (entry_of (latest_of []))
               (passing ["vintage"%string] pool rows))).
Proof.
  apply (recommend_k_exceeds_matches Scenario.far_index Scenario.far_items
           [] [0; 1] ["vintage"%string] 2).
  - reflexivity.
  - reflexivity.
  - vm_compute. discriminate.
  - vm_compute. reflexivity.
Defined.

(** C7, as stated, fails.  The catalogue holds one vintage photo, so
    [k = 2] exceeds the number of rows that pass the filter; the ten
    nearest neighbours of the query are the ten formal photos, all as
    similar to it as can be, and [recommend] returns nothing instead of the
    vintage photo. *)
Lemma recommend_misses_match_outside_pool :
  filter (allowed ["vintage"%string]) Scenario.far_items
    = [Scenario.photo "z.jpg" "vintage" [0; 1]]
  /\ map fst (match search Scenario.far_index Scenario.tie_query (2 * 5)%Z
             with Ok pool => pool | Raise _ => [] end)
     = [9; 8; 7; 6; 5; 4; 3; 2; 1; 0]%Z
  /\ recommend Scenario.far_index Scenario.far_items [] Scenario.tie_query
       ["vintage"%string] 2 = Ok ([], []).
Proof.
  repeat split; vm_compute; reflexivity.
Qed.

(** ** [recommend]: the padding of a short search result *)

(** C10.  Candidates are resolved by position in the [items] table.  When
    the pool size [k * 5] exceeds the number of indexed vectors, the search
    result ends in padding with label [-1]; [iloc] reads label [-1] as the
    last row of the catalogue, so the walk meets no error there and, unless
    the filter excludes the style of that row, scores it with the padding
    distance.  With no filter and fewer vectors than [k], the accepted list
    is filled up to [k] with such entries. *)
Theorem recommend_scores_padding {F} (index : IndexFlatIP Q)
    (init : list (item F)) (last_row : item F) (trends : list trend)
    (q : list Q) (k : Z) :
  let items := init ++ [last_row] in
  let n_vec := List.length (xb index) in
  let phantom := entry_of (latest_of trends) (- FLT_MAX, last_row) in
  n_vec = List.length items ->
  List.length q = d index ->
  (1 <= k)%Z ->
  (Z.of_nat n_vec < k * 5)%Z ->
  (exists real,
      List.length real = n_vec
      /\ search index q (k * 5)%Z
         = Ok (real ++ repeat padding (Z.to_nat (k * 5) - n_vec)))
  /\ iloc items (fst padding) = Ok last_row
  /\ (forall styles pool chosen,
        walk items (latest_of trends) styles k (padding :: pool) chosen
        = if skipped styles (style last_row)
          then walk items (latest_of trends) styles k pool chosen
          else if (k <=? Z.of_nat (List.length (chosen ++ [phantom])))%Z
               then Ok (chosen ++ [phantom])
               else walk items (latest_of trends) styles k pool
                      (chosen ++ [phantom]))
  /\ ((Z.of_nat n_vec < k)%Z ->
      exists real_entries l,
        List.length real_entries = n_vec
        /\ ranked index items trends q [] k = Ok l
        /\ Permutation l
             (real_entries ++ repeat phantom (Z.to_nat k - n_vec))).
Proof.
  intros items n_vec phantom Hl Hq Hk Hn.
  set (n := Z.to_nat (k * 5)).
  assert (Hn0 : (0 < n)%nat) by (unfold n; lia).
  destruct (knn_resolves index items q n Hn0 Hl)
    as (rows & rest & Hres & Hperm0).
  pose proof (knn_length n
                (enumerate_from 0%Z (map (inner q) (xb index))) Hn0) as Hlo.
  rewrite enumerate_length, length_map in Hlo.
  set (ordered := knn n (enumerate_from 0%Z (map (inner q) (xb index))))
    in *.
  assert (Hlo' : List.length ordered = List.length (xb index))
    by (fold n_vec in Hlo |- *; unfold n in *; lia).
  clear Hlo. rename Hlo' into Hlo.
  assert (Hlr : List.length rows = List.length items).
  { pose proof (Forall2_length Hres). fold n_vec in Hlo. lia. }
  assert (Hperm : Permutation rows items).
  { pose proof (Permutation_length Hperm0) as E.
    rewrite length_app in E.
    destruct rest; [now rewrite app_nil_r in Hperm0 | simpl in E; lia]. }
  assert (Hs : search index q (k * 5)%Z
               = Ok (ordered ++ repeat padding (n - n_vec))).
  { rewrite search_Ok by (assumption || lia). cbv zeta. fold n ordered.
    now rewrite Hlo. }
  assert (Hlast : iloc items (fst padding) = Ok last_row)
    by apply iloc_last.
  split; [exists ordered; now split|].
  split; [exact Hlast|].
  split.
  - intros styles pool chosen. unfold padding in *. simpl in *.
    rewrite Hlast. simpl. reflexivity.
  - intros Hlt.
    assert (Hres' : resolves items
                      (ordered ++ repeat padding (n - n_vec))
                      (rows ++ repeat last_row (n - n_vec))).
    { apply Forall2_app; [exact Hres|]. now apply Forall2_repeat. }
    exists (map (entry_of (latest_of trends)) (combine (map snd ordered) rows)).
    eexists.
    split.
    { rewrite length_map, length_combine, length_map.
      fold n_vec in Hlo. lia. }
    split.
    { unfold ranked. rewrite Hs. simpl.
      rewrite (walk_firstn items (latest_of trends) [] k _ _ [] Hres')
        by (simpl; lia).
      reflexivity. }
    eapply perm_trans; [apply sort_by_perm|].
    simpl. rewrite Nat.sub_0_r, passing_nil, map_app.
    rewrite combine_app_eq by (rewrite length_map; fold n_vec in Hlo; lia).
    unfold padding. rewrite map_repeat. simpl.
    rewrite combine_repeat, map_app, map_repeat.
    rewrite firstn_app, firstn_all2
      by (rewrite length_map, length_combine, length_map;
          fold n_vec in Hlo; lia).
    rewrite length_map, length_combine, length_map.
    replace (Nat.min (List.length ordered) (List.length rows)) with n_vec
      by (fold n_vec in Hlo; lia).
    rewrite firstn_repeat by lia.
    apply Permutation_refl.
Qed.

Lemma recommend_scores_padding_witness :
  iloc Scenario.tie_items (-1)%Z
    = Ok (Scenario.photo "data/images/b.jpg" "grunge" [0; 1])
  /\ exists real_entries l,
       List.length real_entries = 2%nat
       /\ ranked Scenario.tie_index Scenario.tie_items Scenario.tie_trends
            Scenario.tie_query [] 3 = Ok l
       /\ Permutation l
            (real_entries
             ++ repeat (entry_of (latest_of Scenario.tie_trends)
                          (- FLT_MAX,
                           Scenario.photo "data/images/b.jpg" "grunge" [0; 1]))
                  1).
Proof.
  destruct (recommend_scores_padding Scenario.tie_index
              [Scenario.photo "data/images/a.jpg" "formal" [1; 0]]
              (Scenario.photo "data/images/b.jpg" "grunge" [0; 1])
              Scenario.tie_trends Scenario.tie_query 3)
    as (_ & H2 & _ & H4).
  - reflexivity.
  - reflexivity.
  - lia.
  - vm_compute. reflexivity.
  - split; [exact H2|]. apply H4. vm_compute. reflexivity.
Defined.

(** ** [calc_trends]: the smoothed curve *)

Lemma wsum_shift (w : Q) (l : list Q) :
  forall j, wsum w (S j) l == w * wsum w j l.
Proof.
  induction l as [|x l IH]; intros j; simpl.
  - ring.
  - rewrite (IH (S j)). ring.
Qed.

Lemma wsum_cons (w x : Q) (l : list Q) :
  wsum w 0 (x :: l) == x + w * wsum w 0 l.
Proof.
  simpl. rewrite wsum_shift. ring.
Qed.

Lemma wtot_nonneg (w : Q) (l : list Q) :
  0 <= w -> 0 <= wsum w 0 (map (fun _ => 1) l).
Proof.
  intros Hw. induction l as [|x l IH].
  - simpl. apply Qle_refl.
  - change (map (fun _ : Q => 1) (x :: l))
      with (1 :: map (fun _ : Q => 1) l).
    rewrite wsum_cons.
    pose proof (Qmult_le_0_compat _ _ Hw IH). lra.
Qed.

(** The loop of pandas computes the adjusted mean: [seen] holds the
    observations behind the current one, the latest first. *)
Lemma ewm_loop_adjusted (alpha : Q) :
  0 <= 1 - alpha ->
  forall xs seen weighted old_wt,
    0 < wsum (1 - alpha) 0 (map (fun _ => 1) seen) ->
    weighted == adjusted_mean (1 - alpha) seen ->
    old_wt == wsum (1 - alpha) 0 (map (fun _ => 1) seen) ->
    Forall2 Qeq (ewm_loop alpha weighted old_wt xs)
      (adjusted_from (1 - alpha) seen xs).
Proof.
  intros Hw.
  induction xs as [|x xs IH]; intros seen weighted old_wt Hpos Hwt Hold;
    simpl; [constructor|].
  set (w := 1 - alpha) in *.
  assert (Htot : wsum w 0 (map (fun _ => 1) (x :: seen))
                 == 1 + w * wsum w 0 (map (fun _ => 1) seen)).
  { change (map (fun _ : Q => 1) (x :: seen))
      with (1 :: map (fun _ : Q => 1) seen).
    apply wsum_cons. }
  assert (Hpos' : 0 < wsum w 0 (map (fun _ => 1) (x :: seen))).
  { rewrite Htot.
    pose proof (Qmult_le_0_compat _ _ Hw (Qlt_le_weak _ _ Hpos)). lra. }
  assert (Hmean : (if Qeq_bool weighted x then weighted
                   else (old_wt * w * weighted + x) / (old_wt * w + 1))
                  == adjusted_mean w (x :: seen)).
  { assert (Hfull : (old_wt * w * weighted + x) / (old_wt * w + 1)
                    == adjusted_mean w (x :: seen)).
    { unfold adjusted_mean. rewrite Htot, wsum_cons, Hwt, Hold.
      unfold adjusted_mean.
      set (S := wsum w 0 seen) in *.
      set (W := wsum w 0 (map (fun _ => 1) seen)) in *.
      assert (HW : ~ W == 0) by (intros E; rewrite E in Hpos; lra).
      assert (HW' : ~ 1 + w * W == 0).
      { intros E. rewrite <- Htot in E. rewrite E in Hpos'. lra. }
      assert (HW'' : ~ W * w + 1 == 0).
      { intros E. apply HW'. rewrite <- E. ring. }
      field. auto. }
    destruct (Qeq_bool weighted x) eqn:Eq; [|exact Hfull].
    apply Qeq_bool_iff in Eq. rewrite <- Hfull, <- Eq.
    assert (HW : ~ old_wt * w + 1 == 0).
    { rewrite Hold. intros E.
      assert (E' : wsum w 0 (map (fun _ => 1) (x :: seen)) == 0)
        by (rewrite Htot, <- E; ring).
      rewrite E' in Hpos'. lra. }
    field. exact HW. }
  constructor; [exact Hmean|].
  apply IH; [exact Hpos' | exact Hmean|].
  rewrite Htot, Hold. ring.
Qed.

Lemma alpha_of_span_le (span : Z) :
  (1 <= span)%Z -> 0 <= 1 - alpha_of_span span.
Proof.
  intros H. unfold alpha_of_span.
  assert (H1 : 1 <= inject_Z span).
  { change 1 with (inject_Z 1). now rewrite <- Zle_Qle. }
  assert (H2 : 2 / (inject_Z span + 1) <= 1).
  { apply Qle_shift_div_r; lra. }
  lra.
Qed.

Lemma adjusted_from_length (w : Q) (xs : list Q) :
  forall seen, List.length (adjusted_from w seen xs) = List.length xs.
Proof.
  induction xs as [|x xs IH]; intros seen; simpl;
    [reflexivity | now rewrite IH].
Qed.

Lemma ewm_mean_adjusted (span : Z) (xs : list Q) :
  (1 <= span)%Z ->
  exists ema,
    ewm_mean span xs = Ok ema
    /\ List.length ema = List.length xs
    /\ Forall2 Qeq ema (adjusted_ema (alpha_of_span span) xs).
Proof.
  intros H. unfold ewm_mean.
  destruct (Z.ltb_spec span 1) as [C|_]; [lia|].
  destruct xs as [|x0 xs].
  - exists []. repeat split. constructor.
  - eexists. split; [reflexivity|].
    assert (HF : Forall2 Qeq
                   (x0 :: ewm_loop (alpha_of_span span) x0 1 xs)
                   (adjusted_ema (alpha_of_span span) (x0 :: xs))).
    { unfold adjusted_ema. simpl adjusted_from.
      assert (E : x0 == adjusted_mean (1 - alpha_of_span span) [x0]).
      { unfold adjusted_mean. simpl. field. }
      constructor; [exact E|].
      apply ewm_loop_adjusted.
      - now apply alpha_of_span_le.
      - simpl. lra.
      - exact E.
      - simpl. ring. }
    split; [|exact HF].
    apply Forall2_length in HF. rewrite HF.
    apply adjusted_from_length.
Qed.

Lemma diff_fillna0_length (xs : list Q) :
  List.length (diff_fillna0 xs) = List.length xs.
Proof.
  destruct xs as [|x xs]; simpl; [reflexivity|]. f_equal.
  revert x. induction xs as [|y xs IH]; intros x; simpl;
    [reflexivity | now rewrite IH].
Qed.

Lemma zip3_rows (s : string) :
  forall (gdf : list (Z * Z)) (ema vel : list Q),
    List.length ema = List.length gdf ->
    List.length vel = List.length gdf ->
    let rows :=
      map (fun r => match r with
                    | ((day, count), e, v) => mk_trend s day count e v
                    end)
        (zip3 gdf ema vel) in
    map t_style rows = repeat s (List.length rows)
    /\ map (fun r => (t_day r, t_count r)) rows = gdf
    /\ map t_ema rows = ema
    /\ map t_velocity rows = vel.
Proof.
  induction gdf as [|[day count] gdf IH]; intros [|e ema] [|v vel] He Hv;
    try discriminate; simpl.
  - repeat split.
  - injection He as He. injection Hv as Hv.
    destruct (IH ema vel He Hv) as (H1 & H2 & H3 & H4).
    simpl in *. repeat split; congruence.
Qed.

(** What [calc_trends] writes for one style. *)
Lemma style_rows_adjusted (span : Z) (s : string) (gdf : list (Z * Z)) :
  (1 <= span)%Z ->
  exists rows,
    style_rows span s gdf = Ok rows
    /\ map t_style rows = repeat s (List.length rows)
    /\ map (fun r => (t_day r, t_count r)) rows = gdf
    /\ Forall2 Qeq (map t_ema rows)
         (adjusted_ema (alpha_of_span span)
            (map (fun r => inject_Z (snd r)) gdf))
    /\ map t_velocity rows = diff_fillna0 (map t_ema rows).
Proof.
  intros H.
  destruct (ewm_mean_adjusted span (map (fun r => inject_Z (snd r)) gdf) H)
    as (ema & He & Hl & Ha).
  rewrite length_map in Hl.
  unfold style_rows. rewrite He. simpl.
  eexists. split; [reflexivity|].
  destruct (zip3_rows s gdf ema (diff_fillna0 ema) Hl)
    as (H1 & H2 & H3 & H4).
  { now rewrite diff_fillna0_length. }
  cbv zeta in H1, H2, H3, H4.
  rewrite H3, H4. auto.
Qed.

Lemma trends_loop_blocks (span : Z) (g : list (string * Z * Z)) :
  (1 <= span)%Z ->
  forall styles out,
  exists blocks,
    trends_loop span g styles out = Ok (out ++ List.concat blocks)
    /\ Forall2
         (fun s rows =>
            map t_style rows = repeat s (List.length rows)
            /\ map (fun r => (t_day r, t_count r)) rows = group_of s g
            /\ Forall2 Qeq (map t_ema rows)
                 (adjusted_ema (alpha_of_span span)
                    (map (fun r => inject_Z (snd r)) (group_of s g)))
            /\ map t_velocity rows = diff_fillna0 (map t_ema rows))
         styles blocks.
Proof.
  intros H. induction styles as [|s styles IH]; intros out; simpl.
  - exists []. simpl. rewrite app_nil_r. split; [reflexivity | constructor].
  - destruct (style_rows_adjusted span s (group_of s g) H)
      as (rows & Hr & Hrows).
    rewrite Hr. simpl.
    destruct (IH (out ++ rows)) as (blocks & Hb & HF).
    exists (rows :: blocks). simpl.
    rewrite Hb, <- app_assoc. split; [reflexivity|].
    constructor; assumption.
Qed.

(** *** The grouped counts *)

Lemma key_eqb_eq (a b : string * Z) : key_eqb a b = true <-> a = b.
Proof.
  unfold key_eqb. destruct a as [s x], b as [t y]. simpl.
  rewrite andb_true_iff, String.eqb_eq, Z.eqb_eq.
  split; [intros [-> ->]; reflexivity | intros E; now injection E].
Qed.

Lemma key_eqb_refl (a : string * Z) : key_eqb a a = true.
Proof. now apply key_eqb_eq. Qed.

Lemma key_ltb_not_eqb (a b : string * Z) :
  key_ltb a b = true -> key_eqb a b = false.
Proof.
  intros H. destruct (key_eqb a b) eqn:E; [|reflexivity].
  apply key_eqb_eq in E. subst b. unfold key_ltb in H.
  destruct (String.compare (fst a) (fst a)) eqn:C.
  - apply Z.ltb_lt in H. lia.
  - now apply str_lt_irrefl in C.
  - discriminate.
Qed.

Lemma key_ltb_trans (a b c : string * Z) :
  key_ltb a b = true -> key_ltb b c = true -> key_ltb a c = true.
Proof.
  unfold key_ltb.
  destruct (String.compare (fst a) (fst b)) eqn:Cab; try discriminate;
    destruct (String.compare (fst b) (fst c)) eqn:Cbc; try discriminate;
    intros Hab Hbc.
  - apply String.compare_eq_iff in Cab, Cbc.
    rewrite Cab, Cbc.
    assert (E : String.compare (fst c) (fst c) = Eq)
      by now apply OrderedTypeEx.String_as_OT.cmp_eq.
    rewrite E. apply Z.ltb_lt in Hab, Hbc. apply Z.ltb_lt. lia.
  - apply String.compare_eq_iff in Cab. now rewrite Cab, Cbc.
  - apply String.compare_eq_iff in Cbc. now rewrite <- Cbc, Cab.
  - now rewrite (str_lt_trans _ _ _ Cab Cbc).
Qed.

Lemma key_ltb_total (a b : string * Z) :
  key_eqb a b = false -> key_ltb a b = false -> key_ltb b a = true.
Proof.
  unfold key_eqb, key_ltb. intros He Hl.
  rewrite String.compare_antisym.
  destruct (String.compare (fst a) (fst b)) eqn:C; simpl.
  - apply String.compare_eq_iff in C. rewrite C, String.eqb_refl in He.
    simpl in He. apply Z.eqb_neq in He. apply Z.ltb_ge in Hl.
    apply Z.ltb_lt. lia.
  - discriminate.
  - reflexivity.
Qed.

Lemma count_of_above (k : string * Z) (g : list (string * Z * Z)) :
  Forall (fun e => key_ltb k (fst e) = true) g -> count_of k g = 0%Z.
Proof.
  induction 1 as [|[k' c] g Hk _ IH]; simpl; [reflexivity|].
  simpl in Hk. now rewrite (key_ltb_not_eqb _ _ Hk).
Qed.

Lemma count_in_keys (k : string * Z) (g : list (string * Z * Z))
    (P : string * Z -> Prop) :
  P k -> Forall (fun e => P (fst e)) g ->
  Forall (fun e => P (fst e)) (count_in k g).
Proof.
  intros Hk. induction 1 as [|[k' c] g Hk' Hg IH]; simpl.
  - now repeat constructor.
  - destruct (key_eqb k k'); [now constructor|].
    destruct (key_ltb k k'); repeat constructor; assumption.
Qed.

Lemma count_in_grouped (k : string * Z) (g : list (string * Z * Z)) :
  grouped g -> grouped (count_in k g).
Proof.
  intros [Hs Hp]. split.
  - clear Hp. induction Hs as [|[k' c] g Hs IH Hk']; simpl.
    + repeat constructor.
    + destruct (key_eqb k k') eqn:E; [now constructor|].
      destruct (key_ltb k k') eqn:L.
      * constructor; [now constructor|].
        constructor; [exact L|].
        eapply Forall_impl; [|exact Hk'].
        intros e He. simpl in He. exact (key_ltb_trans _ _ _ L He).
      * constructor; [exact IH|].
        apply (count_in_keys k g (fun x => key_ltb k' x = true));
          [|exact Hk'].
        now apply key_ltb_total.
  - clear Hs. induction Hp as [|[k' c] g Hc Hp IH]; simpl.
    + repeat constructor.
    + simpl in Hc.
      destruct (key_eqb k k'); [constructor; [simpl; lia | exact Hp]|].
      destruct (key_ltb k k').
      * constructor; [simpl; lia|]. now constructor.
      * now constructor.
Qed.

Lemma count_in_count_of (k0 k : string * Z) (g : list (string * Z * Z)) :
  grouped g ->
  count_of k (count_in k0 g)
  = (count_of k g + if key_eqb k k0 then 1 else 0)%Z.
Proof.
  intros [Hs _]. induction Hs as [|[k' c] g Hs IH Hk']; simpl.
  - destruct (key_eqb k k0); lia.
  - destruct (key_eqb k0 k') eqn:E0.
    + apply key_eqb_eq in E0. subst k'. simpl.
      destruct (key_eqb k k0); lia.
    + destruct (key_ltb k0 k') eqn:L; simpl.
      * destruct (key_eqb k k0) eqn:E; [|lia].
        apply key_eqb_eq in E. subst k.
        rewrite E0, (count_of_above k0 g); [lia|].
        eapply Forall_impl; [|exact Hk'].
        intros e He. simpl in He. exact (key_ltb_trans _ _ _ L He).
      * destruct (key_eqb k k') eqn:E; [|exact IH].
        apply key_eqb_eq in E. subst k'.
        destruct (key_eqb k k0) eqn:E1; [|lia].
        apply key_eqb_eq in E1. subst k0.
        now rewrite key_eqb_refl in E0.
Qed.

Lemma groupby_size_fold (df : list (string * Z)) :
  forall g,
    grouped g ->
    grouped (fold_left (fun g k => count_in k g) df g)
    /\ forall k,
         count_of k (fold_left (fun g k => count_in k g) df g)
         = (count_of k g + occurrences k df)%Z.
Proof.
  induction df as [|k0 df IH]; intros g Hg; simpl.
  - split; [exact Hg|]. intros k. unfold occurrences. simpl. lia.
  - destruct (IH (count_in k0 g) (count_in_grouped k0 g Hg)) as (H1 & H2).
    split; [exact H1|]. intros k.
    rewrite H2, (count_in_count_of k0 k g Hg).
    unfold occurrences. simpl.
    destruct (key_eqb k k0); simpl List.length; lia.
Qed.

Lemma groupby_size_grouped (df : list (string * Z)) :
  grouped (groupby_size df)
  /\ forall k, count_of k (groupby_size df) = occurrences k df.
Proof.
  assert (H0 : grouped []) by (split; constructor).
  destruct (groupby_size_fold df [] H0) as (H1 & H2).
  split; [exact H1|]. intros k. unfold groupby_size.
  rewrite (H2 k). reflexivity.
Qed.

Lemma grouped_In_count_of (g : list (string * Z * Z)) (k : string * Z)
    (c : Z) :
  grouped g -> In (k, c) g -> count_of k g = c.
Proof.
  intros [Hs _]. induction Hs as [|[k' c'] g Hs IH Hk']; intros Hin.
  - destruct Hin.
  - simpl. destruct Hin as [E|Hin].
    + injection E as E1 E2. subst k' c'. now rewrite key_eqb_refl.
    + rewrite Forall_forall in Hk'. specialize (Hk' _ Hin). simpl in Hk'.
      destruct (key_eqb k k') eqn:E; [|now apply IH].
      apply key_eqb_eq in E. subst k'.
      apply key_ltb_not_eqb in Hk'. now rewrite key_eqb_refl in Hk'.
Qed.

Lemma grouped_count_of_In (g : list (string * Z * Z)) (k : string * Z) :
  grouped g -> (0 < count_of k g)%Z -> In (k, count_of k g) g.
Proof.
  intros _. induction g as [|[k' c'] g IH]; simpl; intros H; [lia|].
  destruct (key_eqb k k') eqn:E.
  - apply key_eqb_eq in E. subst k'. now left.
  - right. now apply IH.
Qed.

Lemma sort_by_sorted_id {A} (before : A -> A -> bool) (l : list A) :
  StronglySorted (fun a b => before b a = false) l -> sort_by before l = l.
Proof.
  induction 1 as [|a l Hl IH Ha]; simpl; [reflexivity|].
  rewrite IH. destruct l as [|b l]; simpl; [reflexivity|].
  inversion Ha as [|? ? Hb _]; subst. now rewrite Hb.
Qed.

Lemma select_style_sorted (s : string) (g : list (string * Z * Z)) :
  StronglySorted (fun a b => key_ltb (fst a) (fst b) = true) g ->
  StronglySorted (fun a b => (fst a < fst b)%Z)
    (map (fun r : string * Z * Z => (snd (fst r), snd r))
       (filter (fun r => String.eqb (fst (fst r)) s) g)).
Proof.
  induction 1 as [|[[t x] c] l Hs IH Hk]; simpl; [constructor|].
  destruct (String.eqb_spec t s) as [->|Hne]; [|exact IH].
  simpl. constructor; [exact IH|].
  rewrite Forall_forall in Hk |- *.
  intros [y c'] Hy. apply in_map_iff in Hy.
  destruct Hy as ([[t' y'] c''] & E & Hy). simpl in E.
  injection E as E1 E2. subst y' c''.
  apply filter_In in Hy. destruct Hy as (Hy & Et).
  simpl in Et. apply String.eqb_eq in Et. subst t'.
  specialize (Hk _ Hy). unfold key_ltb in Hk. simpl in Hk.
  assert (E : String.compare s s = Eq)
    by now apply OrderedTypeEx.String_as_OT.cmp_eq.
  rewrite E in Hk. simpl. now apply Z.ltb_lt.
Qed.

(** The group of a style: the days that have rows of the style, ascending,
    each with the number of its rows. *)
Lemma group_of_groupby_size (s : string) (df : list (string * Z)) :
  StronglySorted (fun a b => (fst a < fst b)%Z) (group_of s (groupby_size df))
  /\ Forall (fun r => snd r = occurrences (s, fst r) df /\ (0 < snd r)%Z)
       (group_of s (groupby_size df))
  /\ (forall day, In (s, day) df ->
                  In day (map fst (group_of s (groupby_size df)))).
Proof.
  destruct (groupby_size_grouped df) as (Hg & Hc).
  set (g := groupby_size df) in *.
  set (sel := map (fun r : string * Z * Z => (snd (fst r), snd r))
                (filter (fun r => String.eqb (fst (fst r)) s) g)).
  assert (Hsel : StronglySorted (fun a b => (fst a < fst b)%Z) sel).
  { unfold sel. apply select_style_sorted. now destruct Hg. }
  assert (Hid : group_of s g = sel).
  { unfold group_of. fold sel. apply sort_by_sorted_id.
    clear -Hsel. induction Hsel as [|a l _ IH Ha]; constructor; [exact IH|].
    eapply Forall_impl; [|exact Ha].
    intros b Hb. cbv beta in Hb |- *. apply Z.ltb_ge. lia. }
  rewrite Hid. split; [exact Hsel|]. split.
  - rewrite Forall_forall. intros [x c] Hx. unfold sel in Hx.
    apply in_map_iff in Hx. destruct Hx as ([[t y] c'] & E & Hy).
    simpl in E. injection E as E1 E2. subst y c'.
    apply filter_In in Hy. destruct Hy as (Hy & Et). simpl in Et.
    apply String.eqb_eq in Et. subst t. simpl.
    rewrite <- Hc, (grouped_In_count_of g (s, x) c Hg Hy).
    split; [reflexivity|].
    destruct Hg as (_ & Hp). rewrite Forall_forall in Hp.
    exact (Hp _ Hy).
  - intros day Hin.
    assert (Hpos : (0 < count_of (s, day) g)%Z).
    { rewrite Hc. unfold occurrences.
      assert (Hf : In (s, day) (filter (key_eqb (s, day)) df)).
      { apply filter_In. split; [exact Hin | apply key_eqb_refl]. }
      destruct (filter (key_eqb (s, day)) df); [destruct Hf | simpl; lia]. }
    pose proof (grouped_count_of_In g (s, day) Hg Hpos) as Hg'.
    apply in_map_iff. exists (day, count_of (s, day) g).
    split; [reflexivity|]. unfold sel. apply in_map_iff.
    exists ((s, day), count_of (s, day) g). split; [reflexivity|].
    apply filter_In. split; [exact Hg' | simpl; apply String.eqb_refl].
Qed.

Lemma styles_of_In (g : list (string * Z * Z)) (s : string) :
  In s (styles_of g) <-> exists day c, In (s, day, c) g.
Proof.
  induction g as [|[[t x] c] g IH]; simpl.
  - split; [intros [] | intros (? & ? & [])].
  - assert (Hcons : In s (t :: styles_of g)
                    <-> exists day c0, (t, x, c) = (s, day, c0)
                                       \/ In (s, day, c0) g).
    { simpl. rewrite IH. split.
      - intros [->|(day & c0 & H)]; [exists x, c | exists day, c0]; auto.
      - intros (day & c0 & [E|H]); [left; congruence | right; eauto]. }
    destruct (styles_of g) as [|s' rest] eqn:Es; [exact Hcons|].
    destruct (String.eqb_spec t s') as [->|Hne]; [|exact Hcons].
    rewrite <- Hcons. simpl. tauto.
Qed.

Lemma styles_of_groupby_size (df : list (string * Z)) (s : string) :
  In s (styles_of (groupby_size df)) <-> exists day, In (s, day) df.
Proof.
  destruct (groupby_size_grouped df) as (Hg & Hc).
  rewrite styles_of_In. split.
  - intros (day & c & Hin). exists day.
    pose proof (grouped_In_count_of _ _ _ Hg Hin) as E.
    rewrite Hc in E.
    destruct Hg as (_ & Hp). rewrite Forall_forall in Hp.
    specialize (Hp _ Hin). simpl in Hp. unfold occurrences in E.
    destruct (filter (key_eqb (s, day)) df) as [|k l] eqn:Ef;
      [simpl in E; lia|].
    assert (Hk : In k (filter (key_eqb (s, day)) df))
      by (rewrite Ef; now left).
    apply filter_In in Hk. destruct Hk as (Hk & E').
    apply key_eqb_eq in E'. now subst k.
  - intros (day & Hin).
    destruct (group_of_groupby_size s df) as (_ & _ & H).
    specialize (H day Hin). apply in_map_iff in H.
    destruct H as ([x c] & E & H). simpl in E. subst x.
    exists day, c. unfold group_of in H.
    apply (Permutation_in _ (sort_by_perm _ _)) in H.
    apply in_map_iff in H. destruct H as ([[t y] c'] & E & H).
    simpl in E. injection E as E1 E2. subst y c'.
    apply filter_In in H. destruct H as (H & Et). simpl in Et.
    apply String.eqb_eq in Et. now subst t.
Qed.

(** C1 (amended).  [calc_trends] writes one block of rows for every
    category of the catalogue.  The block holds the days of the category in
    ascending order, each with the number of its items, and smooths these
    counts with the adjusted exponential mean of pandas, with
    [alpha = 2 / (span + 1)]:
    [ema_i = (c_i + (1-alpha) c_(i-1) + ... + (1-alpha)^i c_0)
             / (1 + (1-alpha) + ... + (1-alpha)^i)],
    so [ema_0 = c_0]; the velocity is [0] on the first day and the
    difference of consecutive means afterwards.  For the daily counts
    [2, 2, 8, 2] and [span = 3] the means are [2, 2, 38/7, 18/5], the
    velocities [0, 0, 24/7, -64/35], and the latest velocity of the
    category is [-64/35]. *)
Theorem calc_trends_adjusted_ema (span : Z) (df : list (string * Z)) :
  (1 <= span)%Z ->
  (forall s, In s (styles_of (groupby_size df))
             <-> exists day, In (s, day) df)
  /\ (exists blocks,
        calc_trends span df = Ok (List.concat blocks)
        /\ Forall2
             (fun s rows =>
                let counts := group_of s (groupby_size df) in
                StronglySorted (fun a b => (fst a < fst b)%Z) counts
                /\ Forall (fun r => snd r = occurrences (s, fst r) df
                                    /\ (0 < snd r)%Z) counts
                /\ (forall day, In (s, day) df -> In day (map fst counts))
                /\ map t_style rows = repeat s (List.length rows)
                /\ map (fun r => (t_day r, t_count r)) rows = counts
                /\ Forall2 Qeq (map t_ema rows)
                     (adjusted_ema (alpha_of_span span)
                        (map (fun r => inject_Z (snd r)) counts))
                /\ map t_velocity rows = diff_fillna0 (map t_ema rows))
             (styles_of (groupby_size df)) blocks)
  /\ (exists rows,
        calc_trends 3 Scenario.streetwear_days = Ok rows
        /\ map (fun r => (t_style r, t_day r, t_count r,
                          Qred (t_ema r), Qred (t_velocity r))) rows
           = [("formal"%string, 2%Z, 1%Z, 1, 0);
              ("streetwear"%string, 0%Z, 2%Z, 2, 0);
              ("streetwear"%string, 1%Z, 2%Z, 2, 0);
              ("streetwear"%string, 2%Z, 8%Z, 38 # 7, 24 # 7);
              ("streetwear"%string, 3%Z, 2%Z, 18 # 5, - (64 # 35))]
        /\ latestVelocity rows "streetwear" == - (64 # 35)).
Proof.
  intros H. split; [apply styles_of_groupby_size|]. split.
  - unfold calc_trends.
    destruct (trends_loop_blocks span (groupby_size df) H
                (styles_of (groupby_size df)) [])
      as (blocks & Hb & HF).
    exists blocks. split; [exact Hb|].
    eapply Forall2_impl; [|exact HF].
    intros s rows (H1 & H2 & H3 & H4). cbv zeta.
    destruct (group_of_groupby_size s df) as (G1 & G2 & G3).
    repeat split; assumption.
  - eexists. split; [vm_compute; reflexivity|].
    split; vm_compute; reflexivity.
Qed.

Lemma calc_trends_adjusted_ema_witness :
  (1 <= 3)%Z
  /\ exists blocks,
       calc_trends 3 Scenario.streetwear_days = Ok (List.concat blocks)
       /\ Forall2
            (fun s rows =>
               let counts :=
                 group_of s (groupby_size Scenario.streetwear_days) in
               StronglySorted (fun a b => (fst a < fst b)%Z) counts
               /\ Forall (fun r =>
                            snd r
                            = occurrences (s, fst r) Scenario.streetwear_days
                            /\ (0 < snd r)%Z) counts
               /\ (forall day, In (s, day) Scenario.streetwear_days ->
                               In day (map fst counts))
               /\ map t_style rows = repeat s (List.length rows)
               /\ map (fun r => (t_day r, t_count r)) rows = counts
               /\ Forall2 Qeq (map t_ema rows)
                    (adjusted_ema (alpha_of_span 3)
                       (map (fun r => inject_Z (snd r)) counts))
               /\ map t_velocity rows = diff_fillna0 (map t_ema rows))
            (styles_of (groupby_size Scenario.streetwear_days)) blocks.
Proof.
  split; [lia|].
  apply (calc_trends_adjusted_ema 3 Scenario.streetwear_days).
  lia.
Defined.

(** C1, as stated, fails.  On the daily counts [2, 2, 8, 2] with
    [span = 3] (alpha = 1/2) the third mean is [38/7], not
    [alpha * 8 + (1 - alpha) * 2 = 5], the fourth is [18/5], not [7/2], and
    the latest velocity is [-64/35], not [-3/2]. *)
Lemma calc_trends_not_recursive_ema :
  exists rows,
    calc_trends 3 Scenario.streetwear_days = Ok rows
    /\ map (fun r => inject_Z (t_count r)) (skipn 1 rows) = [2; 2; 8; 2]
    /\ Forall2 Qeq (recursive_ema (alpha_of_span 3) [2; 2; 8; 2])
         [2; 2; 5; 7 # 2]
    /\ nth 2 (map t_ema (skipn 1 rows)) 0 == 38 # 7
    /\ ~ nth 2 (map t_ema (skipn 1 rows)) 0
         == alpha_of_span 3 * 8
            + (1 - alpha_of_span 3) * nth 1 (map t_ema (skipn 1 rows)) 0
    /\ ~ Forall2 Qeq (map t_ema (skipn 1 rows))
           (recursive_ema (alpha_of_span 3) [2; 2; 8; 2])
    /\ ~ latestVelocity rows "streetwear" == - (3 # 2).
Proof.
  eexists. split; [vm_compute; reflexivity|].
  split; [vm_compute; reflexivity|].
  split; [repeat constructor|].
  split; [vm_compute; reflexivity|].
  split; [vm_compute; discriminate|].
  split; [|vm_compute; discriminate].
  intros HF. simpl in HF.
  inversion HF as [|? ? ? ? _ HF1]; subst.
  inversion HF1 as [|? ? ? ? _ HF2]; subst.
  inversion HF2 as [|? ? ? ? E _]; subst.
  vm_compute in E. discriminate E.
Qed.

(** ** [build_faiss] and the indexing script *)
Section IndexBuild.
Local Open Scope R_scope.

Lemma norm_L2sqr_nonneg (x : list R) : 0 <= norm_L2sqr x.
Proof.
  induction x as [|a x IH]; simpl; [lra | nra].
Qed.

Lemma norm_L2sqr_scale (c : R) (x : list R) :
  norm_L2sqr (map (fun a => a * c) x) = c * c * norm_L2sqr x.
Proof.
  induction x as [|a x IH]; simpl; [ring | rewrite IH; ring].
Qed.

Lemma renorm_L2_unit (x : list R) :
  0 < norm_L2sqr x -> norm_L2 (renorm_L2 x) = 1.
Proof.
  intros H. unfold norm_L2, renorm_L2.
  destruct (Rlt_dec 0 (norm_L2sqr x)) as [_|C]; [|contradiction].
  rewrite norm_L2sqr_scale.
  assert (Hs : 0 < sqrt (norm_L2sqr x)) by now apply sqrt_lt_R0.
  replace (1 / sqrt (norm_L2sqr x) * (1 / sqrt (norm_L2sqr x))
           * norm_L2sqr x) with 1; [apply sqrt_1|].
  rewrite <- (sqrt_sqrt (norm_L2sqr x)) at 3 by lra.
  field. lra.
Qed.

Lemma renorm_L2_zero (x : list R) :
  norm_L2sqr x = 0 -> renorm_L2 x = x.
Proof.
  intros H. unfold renorm_L2. rewrite H.
  destruct (Rlt_dec 0 0) as [C|_]; [lra | reflexivity].
Qed.

Lemma vstack_Ok (X : list (list R)) (dim : nat) :
  X <> [] ->
  (forall x, In x X -> List.length x = dim) ->
  vstack X = Ok X /\ List.length (hd [] X) = dim.
Proof.
  intros Hne Hd. destruct X as [|r rs]; [now elim Hne|].
  simpl. split; [|apply Hd; now left].
  assert (E : forallb (fun r' => (List.length r' =? List.length r)%nat) rs
              = true).
  { apply forallb_forall. intros x Hx. apply Nat.eqb_eq.
    rewrite (Hd x) by now right. symmetry. apply Hd. now left. }
  now rewrite E.
Qed.

Lemma build_faiss_inv (items : list (item R))
    (file : option (IndexFlatIP R)) (index : IndexFlatIP R) :
  items <> [] ->
  build_faiss items file = Ok (Some index) ->
  xb index = map renorm_L2 (map emb items).
Proof.
  intros Hne H. destruct items as [|it items]; [now elim Hne|].
  unfold build_faiss in H.
  apply bind_Ok in H. destruct H as (X & HX & H).
  injection H as <-. simpl xb. unfold normalize_L2. f_equal.
  unfold vstack in HX. cbn [map] in HX.
  destruct (forallb _ _) in HX; [now injection HX as <- | discriminate].
Qed.
Lemma tiny_underflow :
  Scenario.sqnorm_underflow [Scenario.tiny; 0] = 0
  /\ 0 < norm_L2sqr [Scenario.tiny; 0].
Proof.
  assert (Hp : 0 < 10 ^ 30) by (apply pow_lt; lra).
  assert (Ht : 0 < Scenario.tiny).
  { unfold Scenario.tiny. now apply Rinv_0_lt_compat. }
  assert (Hsq : Scenario.tiny * Scenario.tiny < / 2 ^ 150).
  { unfold Scenario.tiny. rewrite <- Rinv_mult, <- pow_add.
    apply Rinv_lt_contravar.
    - apply Rmult_lt_0_compat; apply pow_lt; lra.
    - rewrite !pow_IZR. apply IZR_lt. reflexivity. }
  split.
  - cbv [Scenario.sqnorm_underflow fold_right].
    destruct (Rlt_dec (Scenario.tiny * Scenario.tiny) (/ 2 ^ 150))
      as [_|C]; [|contradiction].
    destruct (Rlt_dec (0 * 0) (/ 2 ^ 150)) as [_|C]; [lra|].
    exfalso. apply C. rewrite Rmult_0_l.
    apply Rinv_0_lt_compat, pow_lt. lra.
  - simpl. nra.
Qed.

(** C8 (amended).  [build_faiss] checks no norm.  It inserts the embedding
    of every row of the catalogue, in row order, after [normalize_L2]: an
    embedding whose squared norm, as it is computed, is positive is scaled
    by the inverse of the square root of that squared norm, which in exact
    arithmetic gives a vector of unit length; an embedding whose computed
    squared norm is [0] (the zero vector, and in [float32] also a vector so
    small that its squares underflow) is inserted as it is.  No row is
    rejected and the build never fails with [InvalidEmbeddingError]; on a
    non-empty catalogue with embeddings of one dimension it succeeds. *)
Theorem build_faiss_normalizes (sqnorm : list R -> R)
    (items : list (item R)) (file : option (IndexFlatIP R)) (dim : nat) :
  items <> [] ->
  (forall it, In it items -> List.length (emb it) = dim) ->
  build_faiss_by sqnorm items file <> Raise InvalidEmbeddingError
  /\ (exists index,
        build_faiss_by sqnorm items file = Ok (Some index)
        /\ d index = dim
        /\ Forall2
             (fun it v =>
                (0 < sqnorm (emb it) ->
                 v = map (fun a => a * (1 / sqrt (sqnorm (emb it))))
                       (emb it))
                /\ (sqnorm (emb it) <= 0 -> v = emb it)
                /\ (sqnorm (emb it) = norm_L2sqr (emb it) ->
                    0 < norm_L2sqr (emb it) -> norm_L2 v = 1))
             items (xb index))
  /\ build_faiss items file = build_faiss_by norm_L2sqr items file.
Proof.
  intros Hne Hd.
  destruct (vstack_Ok (map emb items) dim) as (HX & Hdim).
  { destruct items; [now elim Hne | discriminate]. }
  { intros x Hx. apply in_map_iff in Hx. destruct Hx as (it & <- & Hit).
    now apply Hd. }
  assert (Hb : build_faiss_by sqnorm items file
               = Ok (Some (mk_index dim
                             (normalize_L2_by sqnorm (map emb items))))).
  { unfold build_faiss_by. destruct items as [|it items]; [now elim Hne|].
    rewrite HX. unfold bind. now rewrite Hdim. }
  split; [rewrite Hb; discriminate|].
  split; [|reflexivity].
  eexists. split; [exact Hb|]. split; [reflexivity|].
  simpl xb. unfold normalize_L2_by. clear.
  induction items as [|it items IH]; simpl; constructor; [|exact IH].
  unfold renorm_L2_by. cbv zeta.
  destruct (Rlt_dec 0 (sqnorm (emb it))) as [Hp|Hn].
  - split; [reflexivity|]. split; [intros C; lra|].
    intros E Hpos. rewrite E.
    pose proof (renorm_L2_unit (emb it) Hpos) as Hu.
    unfold renorm_L2 in Hu.
    destruct (Rlt_dec 0 (norm_L2sqr (emb it))) as [_|C];
      [exact Hu | contradiction].
  - split; [intros C; contradiction|]. split; [reflexivity|].
    intros E Hpos. rewrite E in Hn. contradiction.
Qed.

Lemma build_faiss_normalizes_witness :
  Scenario.sqnorm_underflow [Scenario.tiny; 0] = 0
  /\ 0 < norm_L2sqr [Scenario.tiny; 0]
  /\ exists index rest,
       build_faiss_by Scenario.sqnorm_underflow Scenario.faint_items None
       = Ok (Some index)
       /\ xb index = [Scenario.tiny; 0] :: rest.
Proof.
  destruct tiny_underflow as (Hz & Hpos).
  split; [exact Hz|]. split; [exact Hpos|].
  destruct (build_faiss_normalizes Scenario.sqnorm_underflow
              Scenario.faint_items None 2)
    as (_ & (index & Hb & _ & HF) & _).
  - discriminate.
  - intros it [<-|[<-|[]]]; reflexivity.
  - exists index. unfold Scenario.faint_items in HF.
    inversion HF as [|it v its vs (_ & Hkeep & _) _ E1 E2].
    exists vs. split; [exact Hb|]. f_equal. apply Hkeep.
    simpl emb. rewrite Hz. apply Rle_refl.
Defined.

(** C8, as stated, fails.  The first row of the catalogue has the zero
    vector as its embedding; the build succeeds and the index holds that
    vector unchanged, with length [0]. *)
Lemma build_faiss_keeps_zero_vector :
  exists rest,
    build_faiss Scenario.blank_items None
    = Ok (Some (mk_index 2 ([0; 0] :: rest)))
    /\ norm_L2 [0; 0] = 0
    /\ build_faiss Scenario.blank_items None
       <> Raise InvalidEmbeddingError.
Proof.
  assert (Hz : norm_L2sqr [0; 0] = 0) by (simpl; ring).
  exists [renorm_L2 [3; 4]].
  assert (Hb : build_faiss Scenario.blank_items None
               = Ok (Some (mk_index 2 [[0; 0]; renorm_L2 [3; 4]]))).
  { unfold build_faiss, Scenario.blank_items. simpl.
    now rewrite (renorm_L2_zero [0; 0] Hz). }
  split; [exact Hb|]. split.
  - unfold norm_L2. rewrite Hz. apply sqrt_0.
  - rewrite Hb. discriminate.
Qed.

Lemma index_image_rows (embed_img : string -> list R)
    (zero_shot_style : list R -> string * R) (utcnow : string -> string)
    (meta_by_path : dict (dict string)) (p : string)
    (items : list (item R)) :
  index_image embed_img zero_shot_style utcnow meta_by_path p items
  = Ok (items ++ [fresh_row embed_img zero_shot_style utcnow p;
                  csv_row embed_img zero_shot_style meta_by_path p]).
Proof.
  unfold index_image, fresh_row, csv_row, upsert_item.
  destruct (zero_shot_style (embed_img p)) as [sty pr]. cbn.
  now rewrite <- app_assoc.
Qed.

Lemma index_images_rows (embed_img : string -> list R)
    (zero_shot_style : list R -> string * R) (utcnow : string -> string)
    (meta_by_path : dict (dict string)) (ps : list string) :
  forall items,
    index_images embed_img zero_shot_style utcnow meta_by_path ps items
    = Ok (items ++
          flat_map
            (fun p => [fresh_row embed_img zero_shot_style utcnow p;
                       csv_row embed_img zero_shot_style meta_by_path p])
            ps).
Proof.
  induction ps as [|p ps IH]; intros items; simpl.
  - now rewrite app_nil_r.
  - rewrite index_image_rows. simpl bind. rewrite IH.
    now rewrite <- app_assoc.
Qed.

(** C9.  One run of the indexing script calls [upsert_item] twice for
    every image file, first with freshly made metadata and then with the
    metadata looked up in the public CSV: the catalogue grows by two rows
    per image, both with the image's path and embedding, and the index
    built from the catalogue holds the normalised embedding of the image
    at two consecutive labels. *)
Theorem main_indexes_each_image_twice (embed_img : string -> list R)
    (zero_shot_style : list R -> string * R) (utcnow : string -> string)
    (meta_by_path : dict (dict string)) (ps : list string)
    (items0 : list (item R)) (file : option (IndexFlatIP R)) (dim : nat) :
  ps <> [] ->
  (forall it, In it items0 -> List.length (emb it) = dim) ->
  (forall p, In p ps -> List.length (embed_img p) = dim) ->
  main embed_img zero_shot_style utcnow meta_by_path ps items0 file
  = Ok (items0 ++
        flat_map
          (fun p => [fresh_row embed_img zero_shot_style utcnow p;
                     csv_row embed_img zero_shot_style meta_by_path p])
          ps,
        Some (mk_index dim
                (normalize_L2 (map emb items0) ++
                 flat_map
                   (fun p => [renorm_L2 (embed_img p);
                              renorm_L2 (embed_img p)])
                   ps)))
  /\ (forall p, local_path (fresh_row embed_img zero_shot_style utcnow p) = p
                /\ local_path (csv_row embed_img zero_shot_style
                                 meta_by_path p) = p
                /\ emb (fresh_row embed_img zero_shot_style utcnow p)
                   = embed_img p
                /\ emb (csv_row embed_img zero_shot_style meta_by_path p)
                   = embed_img p).
Proof.
  intros Hne H0 Hps. split; [|intros p; repeat split].
  unfold main. rewrite index_images_rows. simpl bind.
  set (rows := flat_map
                 (fun p => [fresh_row embed_img zero_shot_style utcnow p;
                            csv_row embed_img zero_shot_style meta_by_path
                              p]) ps).
  assert (Hrows : map emb rows
                  = flat_map (fun p => [embed_img p; embed_img p]) ps).
  { unfold rows. clear. induction ps as [|p ps IH]; simpl;
      [reflexivity | now rewrite IH]. }
  assert (Hr : rows <> []).
  { unfold rows. destruct ps as [|p ps]; [now elim Hne | discriminate]. }
  destruct (vstack_Ok (map emb (items0 ++ rows)) dim) as (HX & Hdim).
  { rewrite map_app. intros E. apply app_eq_nil in E.
    destruct E as (_ & E). apply map_eq_nil in E. contradiction. }
  { intros x Hx. rewrite map_app in Hx. apply in_app_or in Hx.
    destruct Hx as [Hx|Hx].
    - apply in_map_iff in Hx. destruct Hx as (it & <- & Hit). now apply H0.
    - rewrite Hrows in Hx. apply in_flat_map in Hx.
      destruct Hx as (p & Hp & [<-|[<-|[]]]); now apply Hps. }
  assert (Hb : build_faiss (items0 ++ rows) file
               = Ok (Some (mk_index dim
                             (normalize_L2 (map emb (items0 ++ rows)))))).
  { unfold build_faiss.
    destruct (items0 ++ rows) as [|it l] eqn:E.
    - apply app_eq_nil in E. destruct E as (_ & E). contradiction.
    - rewrite HX. unfold bind. now rewrite Hdim. }
  rewrite Hb. simpl bind. do 3 f_equal.
  unfold normalize_L2. rewrite map_app, Hrows, map_app. do 2 f_equal.
  clear. induction ps as [|p ps IH]; simpl;
    [reflexivity | now rewrite IH].
Qed.

Lemma main_indexes_each_image_twice_witness :
  main Scenario.flat_embed Scenario.flat_style Scenario.flat_clock []
    Scenario.two_images [] None
  = Ok ([] ++
        flat_map
          (fun p => [fresh_row Scenario.flat_embed Scenario.flat_style
                       Scenario.flat_clock p;
                     csv_row Scenario.flat_embed Scenario.flat_style [] p])
          Scenario.two_images,
        Some (mk_index 2
                (normalize_L2 (map emb []) ++
                 flat_map
                   (fun p => [renorm_L2 (Scenario.flat_embed p);
                              renorm_L2 (Scenario.flat_embed p)])
                   Scenario.two_images))).
Proof.
  apply (main_indexes_each_image_twice Scenario.flat_embed
           Scenario.flat_style Scenario.flat_clock [] Scenario.two_images
           [] None 2).
  - discriminate.
  - intros it [].
  - intros p _. reflexivity.
Defined.
End IndexBuild.


(** * Further properties *)

(** ** [recommend]: size and provenance of the result *)

Lemma iloc_In {A} (rows : list A) (idx : Z) (r : A) :
  iloc rows idx = Ok r -> In r rows.
Proof.
  unfold iloc. destruct (_ || _); [discriminate|].
  destruct (nth_error rows _) as [r'|] eqn:E; [|discriminate].
  intros H. injection H as <-. exact (nth_error_In _ _ E).
Qed.

Lemma iloc_nil {A} (idx : Z) : iloc (@nil A) idx = Raise IndexError.
Proof.
  unfold iloc. simpl.
  destruct (idx <? 0)%Z eqn:E.
  - rewrite Z.add_0_r, E. reflexivity.
  - destruct (Z.leb_spec 0 idx) as [_|C];
      [now rewrite orb_true_r|].
    apply Z.ltb_ge in E. lia.
Qed.

Lemma walk_length {F} (items : list (item F)) (latest : dict Q)
    (styles : list string) (k : Z) :
  forall pool chosen0 chosen,
    (Z.of_nat (List.length chosen0) < k)%Z ->
    walk items latest styles k pool chosen0 = Ok chosen ->
    (Z.of_nat (List.length chosen) <= k)%Z.
Proof.
  induction pool as [|[idx dist] pool IH]; intros chosen0 chosen Hlt H;
    simpl in H.
  - injection H as <-. lia.
  - apply bind_Ok in H. destruct H as (row & _ & H).
    destruct (skipped styles (style row)); [now apply (IH chosen0)|].
    match type of H with
    | (if (_ <=? Z.of_nat (List.length ?c))%Z then _ else _) = _ =>
        destruct (Z.leb_spec k (Z.of_nat (List.length c))) as [Hk|Hk];
        [injection H as <-; rewrite length_app in *; simpl in *; lia
        | now apply IH in H]
    end.
Qed.

(** Every entry the walk adds belongs to a candidate that resolved to a
    row and was not skipped. *)
Lemma walk_accepted {F} (items : list (item F)) (latest : dict Q)
    (styles : list string) (k : Z) (P : entry -> Prop) :
  forall pool chosen0 chosen,
    (forall idx dist row,
        In (idx, dist) pool -> iloc items idx = Ok row ->
        skipped styles (style row) = false ->
        P (entry_of latest (dist, row))) ->
    Forall P chosen0 ->
    walk items latest styles k pool chosen0 = Ok chosen ->
    Forall P chosen.
Proof.
  induction pool as [|[idx dist] pool IH]; intros chosen0 chosen HP H0 Hw.
  - simpl in Hw. now injection Hw as <-.
  - simpl in Hw. apply bind_Ok in Hw. destruct Hw as (row & Hrow & Hw).
    assert (HP' : forall idx' dist' row',
               In (idx', dist') pool -> iloc items idx' = Ok row' ->
               skipped styles (style row') = false ->
               P (entry_of latest (dist', row'))).
    { intros ? ? ? Hin. apply HP. now right. }
    destruct (skipped styles (style row)) eqn:Es.
    + now apply (IH chosen0).
    + assert (H1 : Forall P (chosen0 ++ [entry_of latest (dist, row)])).
      { apply Forall_app. split; [exact H0|].
        constructor; [|constructor].
        apply (HP idx); [now left | exact Hrow | exact Es]. }
      unfold entry_of in H1. simpl in H1.
      match type of Hw with
      | (if ?c then _ else _) = _ => destruct c
      end.
      * now injection Hw as <-.
      * now apply IH in Hw.
Qed.

Lemma recommend_Ok_inv {F} (index : IndexFlatIP Q) (items : list (item F))
    (trends : list trend) (q : list Q) (styles : list string) (k : Z)
    (images captions : list string) :
  recommend index items trends q styles k = Ok (images, captions) ->
  exists pool chosen,
    search index q (k * 5)%Z = Ok pool
    /\ walk items (latest_of trends) styles k pool [] = Ok chosen
    /\ images = map e_path (sort_reverse chosen)
    /\ captions = map e_style (sort_reverse chosen).
Proof.
  unfold recommend, ranked. intros H.
  apply bind_Ok in H. destruct H as (l & H & Hl).
  apply bind_Ok in H. destruct H as (pool & Hpool & H).
  apply bind_Ok in H. destruct H as (chosen & Hchosen & H).
  injection H as <-. injection Hl as <- <-.
  exists pool, chosen. auto.
Qed.

(** X1.  Whenever [recommend] returns, it returns as many captions as
    images and at most [k] of them. *)
Theorem recommend_at_most_k {F} (index : IndexFlatIP Q)
    (items : list (item F)) (trends : list trend) (q : list Q)
    (styles : list string) (k : Z) (images captions : list string) :
  recommend index items trends q styles k = Ok (images, captions) ->
  List.length images = List.length captions
  /\ (Z.of_nat (List.length images) <= k)%Z.
Proof.
  intros H. apply recommend_Ok_inv in H.
  destruct H as (pool & chosen & Hs & Hw & -> & ->).
  rewrite !length_map. split; [reflexivity|].
  apply search_Ok_inv in Hs. destruct Hs as (_ & Hk & _).
  unfold sort_reverse. rewrite sort_by_length.
  apply (walk_length items (latest_of trends) styles k pool [] chosen);
    [simpl; lia | exact Hw].
Qed.

Lemma recommend_at_most_k_witness :
  List.length ["data/images/b.jpg"; "data/images/a.jpg"]%string
  = List.length ["grunge"; "formal"]%string
  /\ (Z.of_nat (List.length ["data/images/b.jpg"; "data/images/a.jpg"]%string)
      <= 2)%Z.
Proof.
  apply (recommend_at_most_k Scenario.tie_index Scenario.tie_items
           Scenario.tie_trends Scenario.tie_query [] 2).
  vm_compute. reflexivity.
Defined.

(** X2.  Every image [recommend] returns is the [local_path] of a row of
    the catalogue, its caption is the style of that row, and under a
    non-empty filter that style belongs to the filter. *)
Theorem recommend_results_from_catalogue {F} (index : IndexFlatIP Q)
    (items : list (item F)) (trends : list trend) (q : list Q)
    (styles : list string) (k : Z) (images captions : list string) :
  recommend index items trends q styles k = Ok (images, captions) ->
  Forall2
    (fun p s =>
       exists row,
         In row items /\ local_path row = p /\ style row = s
         /\ (styles = [] \/ In s styles))
    images captions.
Proof.
  intros H. apply recommend_Ok_inv in H.
  destruct H as (pool & chosen & Hs & Hw & -> & ->).
  pose (P := fun e : entry =>
    exists row : item F,
      In row items /\ local_path row = e_path e /\ style row = e_style e
      /\ (styles = [] \/ In (e_style e) styles)).
  assert (HP : Forall P chosen).
  { apply (walk_accepted items (latest_of trends) styles k P pool []
             chosen); [|constructor|exact Hw].
    intros idx dist row _ Hr Hsk. exists row.
    unfold entry_of, e_path, e_style. simpl.
    split; [exact (iloc_In _ _ _ Hr)|]. repeat split.
    unfold skipped in Hsk. destruct styles as [|s0 styles']; [now left|].
    right. apply existsb_eqb_In. now apply negb_false_iff in Hsk. }
  assert (HP' : Forall P (sort_reverse chosen)).
  { eapply Permutation_Forall; [|exact HP].
    apply Permutation_sym. unfold sort_reverse. apply sort_by_perm. }
  induction HP' as [|e l He _ IH]; simpl; constructor; [|exact IH].
  destruct He as (row & H1 & H2 & H3 & H4). exists row. auto.
Qed.

Lemma recommend_results_from_catalogue_witness :
  Forall2
    (fun p s =>
       exists row,
         In row Scenario.tie_items /\ local_path row = p /\ style row = s
         /\ (["formal"%string] = [] \/ In s ["formal"%string]))
    ["data/images/a.jpg"%string] ["formal"%string].
Proof.
  apply (recommend_results_from_catalogue Scenario.tie_index
           Scenario.tie_items Scenario.tie_trends Scenario.tie_query
           ["formal"%string] 2).
  vm_compute. reflexivity.
Defined.

(** X4.  Against a catalogue without rows every call of [recommend]
    ends in an exception, whatever the index holds and whatever the query,
    the filter and [k]: no label, the padding label included, finds a
    row. *)
Theorem recommend_empty_catalogue {F} (index : IndexFlatIP Q)
    (trends : list trend) (q : list Q) (styles : list string) (k : Z) :
  exists e, recommend index (@nil (item F)) trends q styles k = Raise e.
Proof.
  unfold recommend, ranked.
  destruct (search index q (k * 5)%Z) as [pool|e] eqn:Hs;
    [|exists e; reflexivity].
  apply search_Ok_inv in Hs. destruct Hs as (_ & Hn & Hl).
  destruct pool as [|[idx dist] pool]; [simpl in Hl; lia|].
  exists IndexError. simpl. now rewrite (iloc_nil idx).
Qed.

Lemma walk_unfiltered_length {F} (items : list (item F)) (latest : dict Q)
    (k : Z) :
  forall pool chosen0 chosen,
    (Z.of_nat (List.length chosen0) < k)%Z ->
    (k <= Z.of_nat (List.length chosen0 + List.length pool))%Z ->
    walk items latest [] k pool chosen0 = Ok chosen ->
    List.length chosen = Z.to_nat k.
Proof.
  induction pool as [|[idx dist] pool IH]; intros chosen0 chosen Hlt Hge H;
    simpl in H.
  - simpl in Hge. lia.
  - apply bind_Ok in H. destruct H as (row & _ & H). simpl in H.
    match type of H with
    | (if (_ <=? Z.of_nat (List.length ?c))%Z then _ else _) = _ =>
        assert (Hc : List.length c = S (List.length chosen0))
          by (rewrite length_app; simpl; lia);
        destruct (Z.leb_spec k (Z.of_nat (List.length c))) as [Hk|Hk]
    end.
    + injection H as <-. lia.
    + apply IH in H; [exact H | lia | simpl in Hge; lia].
Qed.

(** X5.  With no style filter, a call of [recommend] that returns
    returns exactly [k] images and [k] captions, whatever the size of the
    catalogue: the pool has [5 k] places and each of them, padding
    included, is accepted until [k] are chosen. *)
Theorem recommend_unfiltered_full {F} (index : IndexFlatIP Q)
    (items : list (item F)) (trends : list trend) (q : list Q) (k : Z)
    (images captions : list string) :
  recommend index items trends q [] k = Ok (images, captions) ->
  List.length images = Z.to_nat k /\ List.length captions = Z.to_nat k.
Proof.
  intros H. apply recommend_Ok_inv in H.
  destruct H as (pool & chosen & Hs & Hw & -> & ->).
  apply search_Ok_inv in Hs. destruct Hs as (_ & Hn & Hl).
  rewrite !length_map. unfold sort_reverse. rewrite sort_by_length.
  split;
    apply (walk_unfiltered_length items (latest_of trends) k pool []
             chosen); simpl; try lia; exact Hw.
Qed.

Lemma recommend_unfiltered_full_witness :
  exists images captions,
    recommend Scenario.tie_index Scenario.tie_items Scenario.tie_trends
      Scenario.tie_query [] 7 = Ok (images, captions)
    /\ List.length images = Z.to_nat 7
    /\ List.length captions = Z.to_nat 7.
Proof.
  eexists. eexists. split; [vm_compute; reflexivity|].
  apply (recommend_unfiltered_full Scenario.tie_index Scenario.tie_items
           Scenario.tie_trends Scenario.tie_query 7).
  vm_compute. reflexivity.
Defined.

(** ** The velocity table of [recommend] *)

Lemma find_app_l {A} (f : A -> bool) (l1 l2 : list A) :
  find f (l1 ++ l2)
  = match find f l1 with
    | Some a => Some a
    | None => find f l2
    end.
Proof.
  induction l1 as [|a l1 IH]; simpl; [reflexivity|].
  now destruct (f a).
Qed.

(** The entry of a style in the table is its last row in the order of
    the sorted frame. *)
Lemma latest_find_rev (s : string) (L : list trend) :
  find (fun kv => String.eqb (fst kv) s)
    (map (fun r => (t_style r, t_velocity r)) (tail1 L))
  = option_map (fun r => (t_style r, t_velocity r))
      (find (fun r => String.eqb (t_style r) s) (rev L)).
Proof.
  induction L as [|r0 L IH]; simpl; [reflexivity|].
  rewrite find_app_l. simpl.
  destruct (existsb (fun r' => String.eqb (t_style r') (t_style r0)) L)
    eqn:Ex.
  - rewrite IH.
    destruct (find (fun r => String.eqb (t_style r) s) (rev L)) as [r1|]
      eqn:Ef; [reflexivity|].
    destruct (String.eqb_spec (t_style r0) s) as [E|_]; [|reflexivity].
    exfalso. apply existsb_exists in Ex. destruct Ex as (r' & Hin & He).
    apply String.eqb_eq in He.
    pose proof (find_none _ _ Ef r') as Hn.
    rewrite <- in_rev in Hn. specialize (Hn Hin). simpl in Hn.
    rewrite He, E, String.eqb_refl in Hn. discriminate.
  - simpl. destruct (String.eqb_spec (t_style r0) s) as [E|Hne].
    + destruct (find (fun r => String.eqb (t_style r) s) (rev L)) as [r1|]
        eqn:Ef; [|reflexivity].
      exfalso. apply find_some in Ef. destruct Ef as (Hin & He).
      rewrite <- in_rev in Hin. apply String.eqb_eq in He.
      assert (Ht : existsb (fun r' => String.eqb (t_style r') (t_style r0)) L
                   = true).
      { apply existsb_exists. exists r1. split; [exact Hin|].
        apply String.eqb_eq. congruence. }
      congruence.
    + rewrite IH.
      now destruct (find (fun r => String.eqb (t_style r) s) (rev L)).
Qed.

Lemma sorted_find_rev (s : string) (r : trend) (L : list trend) :
  StronglySorted (fun a b => (t_day b <? t_day a)%Z = false) L ->
  In r L ->
  t_style r = s ->
  (forall r', In r' L -> t_style r' = s ->
              (t_day r' < t_day r)%Z \/ t_velocity r' = t_velocity r) ->
  exists r1,
    find (fun r => String.eqb (t_style r) s) (rev L) = Some r1
    /\ t_velocity r1 = t_velocity r.
Proof.
  intros Hs. induction Hs as [|a L Hs IH Ha]; intros Hin Hst Hmax;
    [destruct Hin|].
  simpl. rewrite find_app_l.
  destruct (find (fun r => String.eqb (t_style r) s) (rev L)) as [r1|]
    eqn:Ef.
  - exists r1. split; [reflexivity|].
    destruct (find_some _ _ Ef) as (Hin1 & He1).
    rewrite <- in_rev in Hin1. apply String.eqb_eq in He1.
    destruct Hin as [->|Hin].
    + destruct (Hmax r1 (or_intror Hin1) He1) as [Hlt|Hv]; [|exact Hv].
      rewrite Forall_forall in Ha. specialize (Ha r1 Hin1).
      apply Z.ltb_ge in Ha. lia.
    + destruct (IH Hin Hst) as (r2 & Ef2 & Hv2).
      { intros r' Hr'. apply Hmax. now right. }
      injection Ef2 as E12. subst r2. exact Hv2.
  - destruct Hin as [->|Hin].
    + simpl. subst s. rewrite String.eqb_refl. eauto.
    + exfalso. pose proof (find_none _ _ Ef r) as Hn.
      rewrite <- in_rev in Hn. specialize (Hn Hin). simpl in Hn.
      rewrite Hst, String.eqb_refl in Hn. discriminate.
Qed.

Lemma sort_by_day_sorted (trends : list trend) :
  StronglySorted (fun a b => (t_day b <? t_day a)%Z = false)
    (sort_by (fun y x => (t_day y <? t_day x)%Z) trends).
Proof.
  apply (sort_by_sorted (fun y x => (t_day y <? t_day x)%Z)).
  - intros a b H. apply Z.ltb_lt in H. apply Z.ltb_ge. lia.
  - intros a b c H1 H2. apply Z.ltb_ge in H1, H2. apply Z.ltb_ge. lia.
Qed.

Lemma last_point_None (s : string) (trends : list trend) :
  last_point s trends = None ->
  forall r, In r trends -> t_style r <> s.
Proof.
  induction trends as [|r0 trends IH]; simpl; [intros _ r []|].
  destruct (last_point s trends) as [b|].
  - destruct (String.eqb (t_style r0) s && (t_day b <? t_day r0)%Z);
      discriminate.
  - destruct (String.eqb_spec (t_style r0) s) as [E|E]; [discriminate|].
    intros _ r [<-|Hr]; [exact E | now apply IH].
Qed.

Lemma last_point_Some (s : string) (trends : list trend) (r : trend) :
  last_point s trends = Some r ->
  In r trends /\ t_style r = s
  /\ forall r', In r' trends -> t_style r' = s -> (t_day r' <= t_day r)%Z.
Proof.
  revert r. induction trends as [|r0 trends IH]; simpl; [discriminate|].
  intros r. destruct (last_point s trends) as [b|] eqn:Eb.
  - destruct (IH b eq_refl) as (Hin & Hst & Hmax).
    destruct (String.eqb_spec (t_style r0) s) as [E|E]; simpl.
    + destruct (Z.ltb_spec (t_day b) (t_day r0)) as [L|L];
        intros H; injection H as <-.
      * split; [now left|]. split; [exact E|].
        intros r' [<-|Hr'] Hs'; [lia|]. specialize (Hmax r' Hr' Hs'). lia.
      * split; [now right|]. split; [exact Hst|].
        intros r' [<-|Hr'] Hs'; [lia | now apply Hmax].
    + intros H. injection H as <-.
      split; [now right|]. split; [exact Hst|].
      intros r' [<-|Hr'] Hs'; [contradiction | now apply Hmax].
  - pose proof (last_point_None s trends Eb) as Hno.
    destruct (String.eqb_spec (t_style r0) s) as [E|E]; [|discriminate].
    intros H. injection H as <-.
    split; [now left|]. split; [exact E|].
    intros r' [<-|Hr'] Hs'; [lia|]. now elim (Hno r' Hr').
Qed.

Lemma NoDup_map_inj {A B} (f : A -> B) (l : list A) (a b : A) :
  NoDup (map f l) -> In a l -> In b l -> f a = f b -> a = b.
Proof.
  induction l as [|x l IH]; simpl; [intros _ []|].
  intros Hnd Ha Hb E. inversion Hnd as [|? ? Hx Hnd']; subst.
  destruct Ha as [->|Ha], Hb as [->|Hb]; auto.
  - exfalso. apply Hx. rewrite E. now apply in_map.
  - exfalso. apply Hx. rewrite <- E. now apply in_map.
Qed.

(** The table [recommend] looks velocities up in agrees with the words
    of the specification on a [trends] table that has one point per
    category and day. *)
Lemma latest_of_last_velocity (trends : list trend) (s : string) :
  NoDup (map (fun r => (t_style r, t_day r)) trends) ->
  dict_get (latest_of trends) s 0 = last_velocity trends s.
Proof.
  intros Hnd. unfold last_velocity, latest_of, dict_get.
  rewrite latest_find_rev.
  set (L := sort_by (fun y x => (t_day y <? t_day x)%Z) trends).
  assert (HL : forall r, In r L <-> In r trends).
  { intros r. split; apply Permutation_in;
      [|apply Permutation_sym]; apply sort_by_perm. }
  destruct (last_point s trends) as [r|] eqn:Er.
  - destruct (last_point_Some s trends r Er) as (Hin & Hst & Hmax).
    destruct (sorted_find_rev s r L (sort_by_day_sorted trends)
                (proj2 (HL r) Hin) Hst) as (r1 & Ef & Hv).
    { intros r' Hr' Hs'. apply HL in Hr'.
      specialize (Hmax r' Hr' Hs').
      destruct (Z.eq_dec (t_day r') (t_day r)) as [E|E]; [right | left; lia].
      f_equal.
      apply (NoDup_map_inj (fun r => (t_style r, t_day r)) trends);
        try assumption.
      cbv beta. congruence. }
    rewrite Ef. simpl. exact Hv.
  - pose proof (last_point_None s trends Er) as Hno.
    destruct (find (fun r => String.eqb (t_style r) s) (rev L)) as [r1|]
      eqn:Ef; [|reflexivity].
    exfalso. apply find_some in Ef. destruct Ef as (Hin & He).
    rewrite <- in_rev in Hin. apply String.eqb_eq in He.
    exact (Hno r1 (proj1 (HL r1) Hin) He).
Qed.

(** C5.  On a [trends] table with one point per category and day, every
    entry [recommend] ranks belongs to a candidate of the pool, and its
    score is the candidate's similarity plus [0.25] times the velocity of
    the chronologically last trend point of its category ([0] without
    one), clamped at [0] from below: the score is never below the
    similarity, and it is the similarity itself when that velocity is not
    positive. *)
Theorem recommend_score_clamped {F} (index : IndexFlatIP Q)
    (items : list (item F)) (trends : list trend) (q : list Q)
    (styles : list string) (k : Z) (l : list entry) (c : entry) :
  NoDup (map (fun r => (t_style r, t_day r)) trends) ->
  ranked index items trends q styles k = Ok l ->
  In c l ->
  exists pool idx dist row,
    search index q (k * 5)%Z = Ok pool
    /\ In (idx, dist) pool
    /\ iloc items idx = Ok row
    /\ e_path c = local_path row
    /\ e_style c = style row
    /\ e_score c
       = dist + (1 # 4) * Qmax 0 (last_velocity trends (style row))
    /\ dist <= e_score c
    /\ (last_velocity trends (style row) <= 0 -> e_score c == dist).
Proof.
  intros Hnd H Hin. unfold ranked in H.
  apply bind_Ok in H. destruct H as (pool & Hpool & H).
  apply bind_Ok in H. destruct H as (chosen & Hchosen & H).
  injection H as <-.
  assert (Hc : In c chosen).
  { eapply Permutation_in; [|exact Hin]. apply sort_by_perm. }
  pose (P := fun c : entry =>
    exists idx dist row,
      In (idx, dist) pool /\ iloc items idx = Ok row
      /\ c = entry_of (latest_of trends) (dist, row)).
  assert (HP : Forall P chosen).
  { apply (walk_entries items (latest_of trends) styles k P pool [] chosen);
      [|constructor|exact Hchosen].
    intros idx dist row Hi Hr. exists idx, dist, row. auto. }
  rewrite Forall_forall in HP.
  destruct (HP c Hc) as (idx & dist & row & Hi & Hr & ->).
  exists pool, idx, dist, row.
  unfold entry_of, e_score, e_path, e_style. simpl.
  rewrite (latest_of_last_velocity trends (style row) Hnd).
  repeat split; try assumption.
  - rewrite <- (Qplus_0_r dist) at 1.
    apply Qplus_le_compat; [apply Qle_refl|].
    apply Qmult_le_0_compat; [discriminate | apply Q.le_max_l].
  - intros Hv. rewrite (Q.max_l _ _ Hv). ring.
Qed.

Lemma recommend_score_clamped_witness :
  ranked Scenario.tie_index Scenario.tie_items Scenario.swing_trends
    Scenario.tie_query [] 2
  = Ok [(24 # 20, "data/images/b.jpg", "grunge");
        (4 # 4, "data/images/a.jpg", "formal")]%string
  /\ last_velocity Scenario.swing_trends "grunge" = 24 # 5
  /\ last_velocity Scenario.swing_trends "formal" = - (12 # 5)
  /\ (exists pool idx dist row,
        search Scenario.tie_index Scenario.tie_query (2 * 5)%Z = Ok pool
        /\ In (idx, dist) pool
        /\ iloc Scenario.tie_items idx = Ok row
        /\ "data/images/b.jpg"%string = local_path row
        /\ "grunge"%string = style row
        /\ 24 # 20
           = dist
             + (1 # 4)
               * Qmax 0 (last_velocity Scenario.swing_trends (style row))
        /\ dist <= 24 # 20
        /\ (last_velocity Scenario.swing_trends (style row) <= 0 ->
            24 # 20 == dist))
  /\ (exists pool idx dist row,
        search Scenario.tie_index Scenario.tie_query (2 * 5)%Z = Ok pool
        /\ In (idx, dist) pool
        /\ iloc Scenario.tie_items idx = Ok row
        /\ "data/images/a.jpg"%string = local_path row
        /\ "formal"%string = style row
        /\ 4 # 4
           = dist
             + (1 # 4)
               * Qmax 0 (last_velocity Scenario.swing_trends (style row))
        /\ dist <= 4 # 4
        /\ (last_velocity Scenario.swing_trends (style row) <= 0 ->
            4 # 4 == dist)).
Proof.
  assert (Hnd : NoDup (map (fun r => (t_style r, t_day r))
                         Scenario.swing_trends)).
  { repeat constructor; simpl; intuition discriminate. }
  assert (Hr : ranked Scenario.tie_index Scenario.tie_items
                 Scenario.swing_trends Scenario.tie_query [] 2
               = Ok [(24 # 20, "data/images/b.jpg", "grunge");
                     (4 # 4, "data/images/a.jpg", "formal")]%string)
    by (vm_compute; reflexivity).
  split; [exact Hr|].
  split; [reflexivity|]. split; [reflexivity|]. split.
  - apply (recommend_score_clamped Scenario.tie_index Scenario.tie_items
             Scenario.swing_trends Scenario.tie_query [] 2 _
             (24 # 20, "data/images/b.jpg", "grunge")%string Hnd Hr).
    simpl. left. reflexivity.
  - apply (recommend_score_clamped Scenario.tie_index Scenario.tie_items
             Scenario.swing_trends Scenario.tie_query [] 2 _
             (4 # 4, "data/images/a.jpg", "formal")%string Hnd Hr).
    simpl. right. left. reflexivity.
Defined.

(** X6.  The velocity table [recommend] builds from the [trends] table
    gives a style the velocity of its row with the greatest day (rows of a
    style that share the greatest day must agree on the velocity), and a
    style without rows the neutral velocity [0]. *)
Theorem latest_velocity_greatest_day (trends : list trend) (s : string) :
  ((forall r, In r trends -> t_style r <> s) ->
   latestVelocity trends s = 0)
  /\ (forall r,
        In r trends ->
        t_style r = s ->
        (forall r', In r' trends -> t_style r' = s ->
                    (t_day r' < t_day r)%Z \/ t_velocity r' = t_velocity r) ->
        latestVelocity trends s = t_velocity r).
Proof.
  unfold latestVelocity, latest_of, dict_get.
  rewrite latest_find_rev.
  set (L := sort_by (fun y x => (t_day y <? t_day x)%Z) trends).
  assert (HL : forall r, In r L <-> In r trends).
  { intros r. split; apply Permutation_in;
      [|apply Permutation_sym]; apply sort_by_perm. }
  split.
  - intros Hno.
    destruct (find (fun r => String.eqb (t_style r) s) (rev L)) as [r1|]
      eqn:Ef; [|reflexivity].
    exfalso. apply find_some in Ef. destruct Ef as (Hin & He).
    rewrite <- in_rev in Hin. apply String.eqb_eq in He.
    exact (Hno r1 (proj1 (HL r1) Hin) He).
  - intros r Hin Hst Hmax.
    destruct (sorted_find_rev s r L (sort_by_day_sorted trends)
                (proj2 (HL r) Hin) Hst) as (r1 & Ef & Hv).
    { intros r' Hr'. apply Hmax. now apply HL. }
    rewrite Ef. simpl. exact Hv.
Qed.

Lemma latest_velocity_greatest_day_witness :
  latestVelocity Scenario.tie_trends "grunge" = 4.
Proof.
  apply (proj2 (latest_velocity_greatest_day Scenario.tie_trends "grunge")
           (mk_trend "grunge" 1 9 (29 # 5) 4)).
  - right. left. reflexivity.
  - reflexivity.
  - intros r' [<-|[<-|[]]] _.
    + left. simpl. lia.
    + right. reflexivity.
Defined.

(** ** [calc_trends]: errors and the shape of the table *)

Lemma count_in_not_nil (k : string * Z) (g : list (string * Z * Z)) :
  count_in k g <> [].
Proof.
  destruct g as [|[k' c] g]; simpl; [discriminate|].
  destruct (key_eqb k k'); [discriminate|].
  destruct (key_ltb k k'); discriminate.
Qed.

Lemma groupby_size_not_nil (df : list (string * Z)) :
  df <> [] -> groupby_size df <> [].
Proof.
  unfold groupby_size. intros Hne.
  assert (Hfold : forall l g, g <> [] ->
                    fold_left (fun g k => count_in k g) l g <> []).
  { induction l as [|k l IH]; intros g Hg; simpl; [exact Hg|].
    apply IH, count_in_not_nil. }
  destruct df as [|k df]; [now elim Hne|].
  simpl. apply Hfold. discriminate.
Qed.

Lemma styles_of_not_nil (g : list (string * Z * Z)) :
  g <> [] -> styles_of g <> [].
Proof.
  destruct g as [|[[s x] c] g]; [intros H; now elim H|]. intros _. simpl.
  destruct (styles_of g) as [|s' rest]; [discriminate|].
  destruct (String.eqb s s'); discriminate.
Qed.

Lemma group_of_grouped (s : string) (g : list (string * Z * Z)) :
  grouped g ->
  group_of s g
  = map (fun r : string * Z * Z => (snd (fst r), snd r))
      (filter (fun r => String.eqb (fst (fst r)) s) g).
Proof.
  intros [Hs _]. unfold group_of. apply sort_by_sorted_id.
  pose proof (select_style_sorted s g Hs) as Hsel.
  induction Hsel as [|a l _ IH Ha]; constructor; [exact IH|].
  eapply Forall_impl; [|exact Ha].
  intros b Hb. cbv beta in Hb |- *. apply Z.ltb_ge. lia.
Qed.

Lemma block_keys (s : string) (g : list (string * Z * Z))
    (rows : list trend) :
  grouped g ->
  map t_style rows = repeat s (List.length rows) ->
  map (fun r => (t_day r, t_count r)) rows = group_of s g ->
  map (fun r => (t_style r, t_day r, t_count r)) rows
  = filter (fun r => String.eqb (fst (fst r)) s) g.
Proof.
  intros Hg Hst Hdc. rewrite (group_of_grouped s g Hg) in Hdc.
  assert (E1 : map (fun r => (t_style r, t_day r, t_count r)) rows
               = map (fun dc : Z * Z => (s, fst dc, snd dc))
                   (map (fun r => (t_day r, t_count r)) rows)).
  { rewrite map_map. clear Hdc.
    induction rows as [|r rows IH]; simpl in *; [reflexivity|].
    injection Hst as Hs Hst. rewrite Hs. f_equal. now apply IH. }
  rewrite E1, Hdc, map_map.
  rewrite <- (map_id (filter _ g)) at 2.
  apply map_ext_in. intros [[t x] c] Hin.
  apply filter_In in Hin. destruct Hin as (_ & Et). simpl in Et |- *.
  apply String.eqb_eq in Et. now subst t.
Qed.

Lemma styles_of_cons_inv (g : list (string * Z * Z)) (s : string)
    (rest : list string) :
  styles_of g = s :: rest -> exists x c g', g = (s, x, c) :: g'.
Proof.
  destruct g as [|[[t x] c] g]; simpl; [discriminate|].
  destruct (styles_of g) as [|s' rest'].
  - intros H. injection H as -> _. eauto.
  - destruct (String.eqb_spec t s') as [->|_]; intros H;
      injection H as -> _; eauto.
Qed.

Lemma flat_map_ext_in {A B} (f g : A -> list B) (l : list A) :
  (forall a, In a l -> f a = g a) -> flat_map f l = flat_map g l.
Proof.
  induction l as [|a l IH]; intros H; simpl; [reflexivity|].
  rewrite (H a) by now left. f_equal. apply IH.
  intros b Hb. apply H. now right.
Qed.

Lemma filter_style_above (s : string) (g : list (string * Z * Z)) :
  Forall (fun e => String.compare s (fst (fst e)) = Lt) g ->
  filter (fun r => String.eqb (fst (fst r)) s) g = [].
Proof.
  induction 1 as [|[[t x] c] g Hk _ IH]; simpl; [reflexivity|].
  simpl in Hk. destruct (String.eqb_spec t s) as [->|_]; [|exact IH].
  now apply str_lt_irrefl in Hk.
Qed.

(** In a grouped table the styles are ascending: the groups of the styles,
    in the order of [styles_of], make up the table. *)
Lemma grouped_styles (g : list (string * Z * Z)) :
  grouped g ->
  flat_map (fun s => filter (fun r => String.eqb (fst (fst r)) s) g)
    (styles_of g) = g
  /\ StronglySorted (fun a b => String.compare a b = Lt) (styles_of g).
Proof.
  intros [Hs _]. induction Hs as [|[[s x] c] g Hs IH Hk].
  - simpl. split; constructor.
  - destruct IH as (IH1 & IH2).
    assert (Hself : String.eqb s s = true) by apply String.eqb_refl.
    simpl styles_of. destruct (styles_of g) as [|s' rest] eqn:Es.
    + assert (g = []) as ->.
      { destruct g as [|e g']; [reflexivity|].
        exfalso. apply (styles_of_not_nil (e :: g')); [discriminate|].
        exact Es. }
      simpl. rewrite Hself. split; repeat constructor.
    + destruct (styles_of_cons_inv g s' rest Es) as (y & c' & g' & Eg).
      assert (Hrest : Forall (fun t => String.compare s' t = Lt) rest)
        by (inversion IH2; assumption).
      assert (Hss' : String.compare s s' = Lt \/ s = s').
      { rewrite Eg in Hk. inversion Hk as [|? ? H _]; subst.
        unfold key_ltb in H. simpl in H.
        destruct (String.compare s s') eqn:C; try discriminate; auto.
        right. now apply String.compare_eq_iff. }
      destruct (String.eqb_spec s s') as [<-|Hne].
      * split; [|exact IH2].
        cbn [flat_map filter fst]. rewrite Hself. simpl. f_equal.
        etransitivity; [|exact IH1]. cbn [flat_map]. f_equal.
        apply flat_map_ext_in. intros t Ht.
        rewrite Forall_forall in Hrest. specialize (Hrest t Ht).
        cbn [filter fst].
        destruct (String.eqb_spec s t) as [->|_]; [|reflexivity].
        now apply str_lt_irrefl in Hrest.
      * destruct Hss' as [Hlt|E]; [|contradiction].
        assert (Hall : Forall (fun t => String.compare s t = Lt)
                         (s' :: rest)).
        { constructor; [exact Hlt|].
          eapply Forall_impl; [|exact Hrest].
          intros t Ht. exact (str_lt_trans _ _ _ Hlt Ht). }
        split; [|now constructor].
        assert (Hnone : filter (fun r => String.eqb (fst (fst r)) s) g = []).
        { apply filter_style_above. rewrite Forall_forall.
          intros [[t z] c''] Hin. simpl.
          assert (Ht : In t (styles_of g))
            by (apply styles_of_In; eauto).
          rewrite Es in Ht. rewrite Forall_forall in Hall.
          exact (Hall t Ht). }
        cbn [flat_map filter fst]. rewrite Hself, Hnone. simpl. f_equal.
        etransitivity; [|exact IH1].
        change (flat_map ?f rest) with (flat_map f rest).
        match goal with
        | |- ?a ++ flat_map ?f rest = _ =>
            change (flat_map f (s' :: rest)
                    = flat_map
                        (fun s0 =>
                           filter (fun r => String.eqb (fst (fst r)) s0) g)
                        (s' :: rest))
        end.
        apply flat_map_ext_in. intros t Ht.
        rewrite Forall_forall in Hall. specialize (Hall t Ht).
        cbn [filter fst].
        destruct (String.eqb_spec s t) as [->|_]; [|reflexivity].
        now apply str_lt_irrefl in Hall.
Qed.

Lemma count_in_total (k : string * Z) (g : list (string * Z * Z)) :
  fold_right Z.add 0%Z (map snd (count_in k g))
  = (fold_right Z.add 0%Z (map snd g) + 1)%Z.
Proof.
  induction g as [|[k' c] g IH]; cbn [count_in fold_right map snd];
    [reflexivity|].
  destruct (key_eqb k k'); cbn [fold_right map snd]; [lia|].
  destruct (key_ltb k k'); cbn [fold_right map snd]; [lia|].
  rewrite IH. lia.
Qed.

Lemma groupby_size_total (df : list (string * Z)) :
  fold_right Z.add 0%Z (map snd (groupby_size df))
  = Z.of_nat (List.length df).
Proof.
  unfold groupby_size.
  assert (H : forall l g,
             fold_right Z.add 0%Z
               (map snd (fold_left (fun g k => count_in k g) l g))
             = (fold_right Z.add 0%Z (map snd g)
                + Z.of_nat (List.length l))%Z).
  { induction l as [|k l IH]; intros g; simpl fold_left.
    - simpl. lia.
    - rewrite IH, count_in_total. simpl List.length. lia. }
  rewrite H. simpl. reflexivity.
Qed.

Lemma Forall2_In_r {A B} (R : A -> B -> Prop) (l : list A) (l' : list B)
    (y : B) :
  Forall2 R l l' -> In y l' -> exists x, In x l /\ R x y.
Proof.
  induction 1 as [|a b l l' Hab _ IH]; intros Hin; [destruct Hin|].
  destruct Hin as [<-|Hin].
  - exists a. split; [now left | exact Hab].
  - destruct (IH Hin) as (x & Hx & HR). exists x. split; [now right|exact HR].
Qed.

Lemma StronglySorted_map_inv {A B} (f : A -> B) (R : B -> B -> Prop)
    (l : list A) :
  StronglySorted R (map f l) -> StronglySorted (fun a b => R (f a) (f b)) l.
Proof.
  induction l as [|a l IH]; intros H; [constructor|].
  simpl in H. inversion H as [|? ? Hs Hf]; subst.
  constructor; [now apply IH|].
  rewrite Forall_forall in Hf |- *. intros b Hb.
  apply Hf. now apply in_map.
Qed.

(** What [calc_trends] writes, block by block. *)
Lemma calc_trends_blocks (span : Z) (df : list (string * Z)) :
  (1 <= span)%Z ->
  exists blocks,
    calc_trends span df = Ok (List.concat blocks)
    /\ Forall2
         (fun s rows =>
            map t_style rows = repeat s (List.length rows)
            /\ map (fun r => (t_day r, t_count r)) rows
               = group_of s (groupby_size df)
            /\ Forall2 Qeq (map t_ema rows)
                 (adjusted_ema (alpha_of_span span)
                    (map (fun r => inject_Z (snd r))
                       (group_of s (groupby_size df))))
            /\ map t_velocity rows = diff_fillna0 (map t_ema rows))
         (styles_of (groupby_size df)) blocks.
Proof.
  intros H. unfold calc_trends.
  destruct (trends_loop_blocks span (groupby_size df) H
              (styles_of (groupby_size df)) []) as (blocks & Hb & HF).
  exists blocks. split; [exact Hb | exact HF].
Qed.

Lemma calc_trends_keys (span : Z) (df : list (string * Z)) :
  (1 <= span)%Z ->
  exists out,
    calc_trends span df = Ok out
    /\ map (fun r => (t_style r, t_day r, t_count r)) out = groupby_size df.
Proof.
  intros H. destruct (calc_trends_blocks span df H) as (blocks & Hb & HF).
  exists (List.concat blocks). split; [exact Hb|].
  destruct (groupby_size_grouped df) as (Hg & _).
  destruct (grouped_styles _ Hg) as (Hflat & _).
  etransitivity; [|exact Hflat].
  rewrite concat_map, flat_map_concat_map. f_equal.
  clear Hb Hflat.
  induction HF as [|s rows ss blocks' (H1 & H2 & _) _ IH]; simpl;
    [reflexivity|].
  rewrite IH. f_equal. now apply block_keys.
Qed.

Lemma calc_trends_dated_span (span : Z) (df : list (string * Z)) :
  df <> [] ->
  ((span < 1)%Z -> calc_trends span df = Raise ValueError)
  /\ ((1 <= span)%Z ->
      exists out, calc_trends span df = Ok out /\ out <> []).
Proof.
  intros Hne. split.
  - intros Hs. unfold calc_trends.
    pose proof (styles_of_not_nil _ (groupby_size_not_nil df Hne)) as Hst.
    destruct (styles_of (groupby_size df)) as [|s ss]; [now elim Hst|].
    simpl. unfold style_rows, ewm_mean.
    destruct (Z.ltb_spec span 1) as [_|C]; [reflexivity | lia].
  - intros Hs. destruct (calc_trends_keys span df Hs) as (out & Ho & Hk).
    exists out. split; [exact Ho|]. intros E. subst out.
    apply (groupby_size_not_nil df Hne). now rewrite <- Hk.
Qed.

Lemma calc_trends_dated_table (span : Z) (df : list (string * Z)) :
  df <> [] ->
  (1 <= span)%Z ->
  exists out,
    calc_trends span df = Ok out
    /\ StronglySorted
         (fun a b => key_ltb (t_style a, t_day a) (t_style b, t_day b) = true)
         out
    /\ (forall r, In r out ->
                  t_count r = occurrences (t_style r, t_day r) df
                  /\ (0 < t_count r)%Z)
    /\ (forall s day, In (s, day) df ->
                      exists r, In r out /\ t_style r = s /\ t_day r = day)
    /\ fold_right Z.add 0%Z (map t_count out) = Z.of_nat (List.length df).
Proof.
  intros _ H. destruct (calc_trends_keys span df H) as (out & Ho & Hk).
  destruct (groupby_size_grouped df) as (Hg & Hc).
  exists out. split; [exact Ho|]. split; [|split; [|split]].
  - destruct Hg as (Hs & _). rewrite <- Hk in Hs.
    apply StronglySorted_map_inv in Hs. exact Hs.
  - intros r Hr.
    assert (Hin : In (t_style r, t_day r, t_count r) (groupby_size df)).
    { rewrite <- Hk. apply in_map_iff. eauto. }
    rewrite <- Hc, (grouped_In_count_of _ _ _ Hg Hin).
    split; [reflexivity|].
    destruct Hg as (_ & Hp). rewrite Forall_forall in Hp.
    exact (Hp _ Hin).
  - intros s day Hin.
    assert (Hpos : (0 < count_of (s, day) (groupby_size df))%Z).
    { rewrite Hc. unfold occurrences.
      assert (Hf : In (s, day) (filter (key_eqb (s, day)) df)).
      { apply filter_In. split; [exact Hin | apply key_eqb_refl]. }
      destruct (filter (key_eqb (s, day)) df); [destruct Hf | simpl; lia]. }
    pose proof (grouped_count_of_In _ (s, day) Hg Hpos) as Hg'.
    rewrite <- Hk in Hg'. apply in_map_iff in Hg'.
    destruct Hg' as (r & E & Hr). injection E as E1 E2 _. eauto.
  - rewrite <- groupby_size_total, <- Hk, map_map. reflexivity.
Qed.

Lemma dated_In (rows : list (string * option Z)) (s : string) (day : Z) :
  In (s, day) (dated rows) <-> In (s, Some day) rows.
Proof.
  unfold dated. rewrite in_flat_map. split.
  - intros ([s' [d'|]] & Hin & H); simpl in H; [|destruct H].
    destruct H as [E|[]]. now injection E as -> ->.
  - intros H. exists (s, Some day). split; [exact H | now left].
Qed.

Lemma dated_length (rows : list (string * option Z)) :
  Z.of_nat (List.length (dated rows))
  = (Z.of_nat (List.length rows)
     - Z.of_nat (List.length (filter undated rows)))%Z.
Proof.
  unfold dated.
  induction rows as [|[s [day|]] rows IH];
    cbn [flat_map filter undated snd fst app List.length] in *;
    [reflexivity | lia | lia].
Qed.

Lemma dated_nil (rows : list (string * option Z)) :
  (forall r, In r rows -> snd r = None) -> dated rows = [].
Proof.
  induction rows as [|r rows IH]; intros H; simpl; [reflexivity|].
  rewrite (H r) by now left. simpl. apply IH.
  intros r' Hr'. apply H. now right.
Qed.

Lemma calc_trends_items_Ok (span : Z) (rows : list (string * option Z))
    (out : list trend) :
  calc_trends span (dated rows) = Ok out ->
  out <> [] ->
  calc_trends_items span rows = Ok out.
Proof.
  intros H Hne. unfold calc_trends_items. rewrite H. simpl.
  destruct out; [now elim Hne | reflexivity].
Qed.

(** X7.  When no row of the catalogue has a [ts] that parses to a date,
    a catalogue without rows included, [calc_trends] fails with the
    [StatementError] of the empty [INSERT], whatever the span.  When some
    row has a date it fails with the [ValueError] of pandas exactly when
    [span < 1]; for every other span it writes a table with at least one
    row. *)
Theorem calc_trends_span_check (span : Z)
    (rows : list (string * option Z)) :
  ((forall r, In r rows -> snd r = None) ->
   calc_trends_items span rows = Raise StatementError)
  /\ ((exists s day, In (s, Some day) rows) ->
      ((span < 1)%Z -> calc_trends_items span rows = Raise ValueError)
      /\ ((1 <= span)%Z ->
          exists out, calc_trends_items span rows = Ok out /\ out <> [])).
Proof.
  split.
  - intros H. unfold calc_trends_items. now rewrite (dated_nil rows H).
  - intros (s & day & Hin).
    assert (Hne : dated rows <> []).
    { apply dated_In in Hin. intros E. rewrite E in Hin. destruct Hin. }
    destruct (calc_trends_dated_span span (dated rows) Hne) as (H1 & H2).
    split.
    + intros Hs. unfold calc_trends_items. now rewrite (H1 Hs).
    + intros Hs. destruct (H2 Hs) as (out & Ho & Hout).
      exists out. split; [now apply calc_trends_items_Ok | exact Hout].
Qed.

Lemma calc_trends_span_check_witness :
  calc_trends_items 0 Scenario.indexed_rows = Raise ValueError
  /\ (exists out,
        calc_trends_items 5 Scenario.indexed_rows = Ok out /\ out <> [])
  /\ calc_trends_items 5 [("formal"%string, None); ("grunge"%string, None)]
     = Raise StatementError.
Proof.
  destruct (calc_trends_span_check 0 Scenario.indexed_rows) as (_ & H0).
  destruct (calc_trends_span_check 5 Scenario.indexed_rows) as (_ & H5).
  destruct (calc_trends_span_check 5
              [("formal"%string, None); ("grunge"%string, None)])
    as (Hn & _).
  split; [|split].
  - apply H0; [|lia]. exists "formal"%string, 2%Z. now left.
  - apply H5; [|lia]. exists "formal"%string, 2%Z. now left.
  - apply Hn. intros r [<-|[<-|[]]]; reflexivity.
Defined.

(** X8.  When some row of the catalogue has a date and the span is valid,
    the table [calc_trends] writes has one row for every pair of a style
    and a day that occurs in the catalogue, in strictly ascending order of
    (style, day); the row carries the number of catalogue rows of that
    style and day.  Rows without a date are counted nowhere: the counts of
    the table add up to the number of rows that have one. *)
Theorem calc_trends_table (span : Z) (rows : list (string * option Z)) :
  (exists s day, In (s, Some day) rows) ->
  (1 <= span)%Z ->
  exists out,
    calc_trends_items span rows = Ok out
    /\ StronglySorted
         (fun a b => key_ltb (t_style a, t_day a) (t_style b, t_day b) = true)
         out
    /\ (forall r, In r out ->
                  t_count r = occurrences (t_style r, t_day r) (dated rows)
                  /\ (0 < t_count r)%Z)
    /\ (forall s day, In (s, Some day) rows ->
                      exists r, In r out /\ t_style r = s /\ t_day r = day)
    /\ fold_right Z.add 0%Z (map t_count out)
       = (Z.of_nat (List.length rows)
          - Z.of_nat (List.length (filter undated rows)))%Z.
Proof.
  intros (s0 & day0 & Hin0) Hs.
  assert (Hne : dated rows <> []).
  { apply dated_In in Hin0. intros E. rewrite E in Hin0. destruct Hin0. }
  destruct (calc_trends_dated_table span (dated rows) Hne Hs)
    as (out & Ho & Hsorted & Hcount & Hall & Hsum).
  exists out. split.
  { apply calc_trends_items_Ok; [exact Ho|].
    apply dated_In in Hin0. destruct (Hall _ _ Hin0) as (r & Hr & _).
    intros E. rewrite E in Hr. destruct Hr. }
  split; [exact Hsorted|]. split; [exact Hcount|]. split.
  - intros s day Hin. apply Hall. now apply dated_In.
  - rewrite Hsum. apply dated_length.
Qed.

Lemma calc_trends_table_witness :
  exists out,
    calc_trends_items 5 Scenario.indexed_rows = Ok out
    /\ map t_count out = [1; 1]%Z
    /\ fold_right Z.add 0%Z (map t_count out)
       = (Z.of_nat (List.length Scenario.indexed_rows)
          - Z.of_nat (List.length (filter undated Scenario.indexed_rows)))%Z.
Proof.
  destruct (calc_trends_table 5 Scenario.indexed_rows)
    as (out & Ho & _ & _ & _ & Hsum).
  - exists "formal"%string, 2%Z. now left.
  - lia.
  - exists out. split; [exact Ho|]. split; [|exact Hsum].
    assert (E : calc_trends_items 5 Scenario.indexed_rows
                = Ok [mk_trend "formal" 2 1 1 0; mk_trend "grunge" 2 1 1 0])
      by (vm_compute; reflexivity).
    rewrite E in Ho. injection Ho as <-. reflexivity.
Defined.

(** ** [calc_trends]: the range of the smoothed curve *)

Lemma Qpow_nonneg (w : Q) (j : nat) : 0 <= w -> 0 <= Qpow w j.
Proof.
  intros Hw. induction j as [|j IH]; simpl; [discriminate|].
  now apply Qmult_le_0_compat.
Qed.

Lemma wsum_bounds (w lo hi : Q) (l : list Q) :
  0 <= w ->
  Forall (fun x => lo <= x <= hi) l ->
  forall j,
    lo * wsum w j (map (fun _ => 1) l) <= wsum w j l
    /\ wsum w j l <= hi * wsum w j (map (fun _ => 1) l).
Proof.
  intros Hw. induction 1 as [|x l (Hlo & Hhi) _ IH]; intros j; simpl.
  - split; ring_simplify; apply Qle_refl.
  - destruct (IH (S j)) as (IH1 & IH2).
    pose proof (Qpow_nonneg w j Hw) as Hp.
    split; nra.
Qed.

Lemma wtot_pos (w x : Q) (l : list Q) :
  0 <= w -> 0 < wsum w 0 (map (fun _ => 1) (x :: l)).
Proof.
  intros Hw.
  change (map (fun _ : Q => 1) (x :: l)) with (1 :: map (fun _ : Q => 1) l).
  rewrite wsum_cons.
  pose proof (Qmult_le_0_compat _ _ Hw (wtot_nonneg w l Hw)). lra.
Qed.

Lemma adjusted_from_bounds (w lo hi : Q) :
  0 <= w ->
  forall xs seen,
    Forall (fun x => lo <= x <= hi) seen ->
    Forall (fun x => lo <= x <= hi) xs ->
    Forall (fun x => lo <= x <= hi) (adjusted_from w seen xs).
Proof.
  intros Hw. induction xs as [|x xs IH]; intros seen Hseen Hxs; simpl;
    [constructor|].
  inversion Hxs as [|? ? Hx Hxs']; subst.
  assert (Hall : Forall (fun x => lo <= x <= hi) (x :: seen))
    by now constructor.
  constructor; [|now apply IH].
  unfold adjusted_mean.
  destruct (wsum_bounds w lo hi (x :: seen) Hw Hall 0) as (H1 & H2).
  pose proof (wtot_pos w x seen Hw) as Hpos.
  split.
  - apply Qle_shift_div_l; assumption.
  - apply Qle_shift_div_r; assumption.
Qed.

Lemma diff_fillna0_bounds (lo hi : Q) (xs : list Q) :
  Forall (fun x => lo <= x <= hi) xs ->
  Forall (fun v => lo - hi <= v <= hi - lo) (diff_fillna0 xs).
Proof.
  intros H. destruct H as [|x xs (Hlo & Hhi) Hxs]; simpl; [constructor|].
  constructor; [lra|].
  revert x Hlo Hhi.
  induction Hxs as [|y xs (Hy1 & Hy2) _ IH]; intros x Hlo Hhi; simpl;
    constructor; [lra|].
  now apply IH.
Qed.

Lemma occurrences_pos_In (k : string * Z) (df : list (string * Z)) :
  (0 < occurrences k df)%Z -> In k df.
Proof.
  unfold occurrences. intros H.
  destruct (filter (key_eqb k) df) as [|k' l] eqn:Ef; [simpl in H; lia|].
  assert (Hk : In k' (filter (key_eqb k) df)) by (rewrite Ef; now left).
  apply filter_In in Hk. destruct Hk as (Hk & E).
  apply key_eqb_eq in E. now subst k'.
Qed.

(** The rows of a block whose daily counts lie between [lo] and [hi]. *)
Lemma block_bounds (span : Z) (s : string) (df : list (string * Z))
    (rows : list trend) (lo hi : Z) (r : trend) :
  (1 <= span)%Z ->
  map (fun r => (t_day r, t_count r)) rows = group_of s (groupby_size df) ->
  Forall2 Qeq (map t_ema rows)
    (adjusted_ema (alpha_of_span span)
       (map (fun r => inject_Z (snd r)) (group_of s (groupby_size df)))) ->
  map t_velocity rows = diff_fillna0 (map t_ema rows) ->
  (forall day, In (s, day) df ->
               (lo <= occurrences (s, day) df <= hi)%Z) ->
  In r rows ->
  (inject_Z lo <= t_ema r /\ t_ema r <= inject_Z hi)
  /\ (inject_Z (lo - hi) <= t_velocity r
      /\ t_velocity r <= inject_Z (hi - lo)).
Proof.
  intros Hs Hdc Hema Hvel Hocc Hin.
  destruct (group_of_groupby_size s df) as (_ & Hcounts & _).
  set (counts := group_of s (groupby_size df)) in *.
  assert (Hc : Forall (fun x => inject_Z lo <= x <= inject_Z hi)
                 (map (fun r => inject_Z (snd r)) counts)).
  { rewrite Forall_forall. intros x Hx. apply in_map_iff in Hx.
    destruct Hx as ([day c] & <- & Hdcin). simpl.
    rewrite Forall_forall in Hcounts.
    destruct (Hcounts _ Hdcin) as (Ec & Hpos). simpl in Ec, Hpos.
    assert (Hd : In (s, day) df)
      by (apply occurrences_pos_In; rewrite <- Ec; exact Hpos).
    specialize (Hocc day Hd). rewrite <- Ec in Hocc.
    rewrite <- !Zle_Qle. exact Hocc. }
  assert (Ha : Forall (fun x => inject_Z lo <= x <= inject_Z hi)
                 (adjusted_ema (alpha_of_span span)
                    (map (fun r => inject_Z (snd r)) counts))).
  { unfold adjusted_ema. apply adjusted_from_bounds;
      [now apply alpha_of_span_le | constructor | exact Hc]. }
  assert (He : Forall (fun x => inject_Z lo <= x <= inject_Z hi)
                 (map t_ema rows)).
  { clear -Hema Ha. induction Hema as [|a b l l' Hab _ IH];
      [constructor|].
    inversion Ha as [|? ? (H1 & H2) Ha']; subst.
    constructor; [rewrite Hab; now split | now apply IH]. }
  split.
  - rewrite Forall_forall in He. apply He. now apply in_map.
  - pose proof (diff_fillna0_bounds _ _ _ He) as Hv.
    rewrite <- Hvel in Hv. rewrite Forall_forall in Hv.
    assert (Hr : In (t_velocity r) (map t_velocity rows)) by now apply in_map.
    specialize (Hv _ Hr). unfold Zminus. rewrite !inject_Z_plus.
    rewrite !inject_Z_opp. lra.
Qed.

Lemma calc_trends_row_block (span : Z) (df : list (string * Z)) :
  (1 <= span)%Z ->
  exists out,
    calc_trends span df = Ok out
    /\ forall r, In r out ->
         exists rows,
           In r rows
           /\ (forall r', In r' rows -> In r' out /\ t_style r' = t_style r)
           /\ map (fun r => (t_day r, t_count r)) rows
              = group_of (t_style r) (groupby_size df)
           /\ Forall2 Qeq (map t_ema rows)
                (adjusted_ema (alpha_of_span span)
                   (map (fun r => inject_Z (snd r))
                      (group_of (t_style r) (groupby_size df))))
           /\ map t_velocity rows = diff_fillna0 (map t_ema rows).
Proof.
  intros H. destruct (calc_trends_blocks span df H) as (blocks & Hb & HF).
  exists (List.concat blocks). split; [exact Hb|].
  intros r Hr. apply in_concat in Hr. destruct Hr as (rows & Hrows & Hin).
  destruct (Forall2_In_r _ _ _ _ HF Hrows) as (s & _ & H1 & H2 & H3 & H4).
  assert (Hst : forall r', In r' rows -> t_style r' = s).
  { intros r' Hr'. assert (Hi : In (t_style r') (map t_style rows))
      by now apply in_map.
    rewrite H1 in Hi. now apply repeat_spec in Hi. }
  rewrite (Hst r Hin). exists rows. repeat split; try assumption.
  - apply in_concat. eauto.
  - now apply Hst.
Qed.

(** X9.  Every smoothed value [calc_trends] writes lies between the
    smallest and the greatest daily count of its category, and every
    velocity is at most their difference in absolute value. *)
Theorem calc_trends_ema_bounds (span : Z) (df : list (string * Z)) :
  df <> [] ->
  (1 <= span)%Z ->
  exists out,
    calc_trends span df = Ok out
    /\ forall r lo hi,
         In r out ->
         (forall day, In (t_style r, day) df ->
                      (lo <= occurrences (t_style r, day) df <= hi)%Z) ->
         (inject_Z lo <= t_ema r /\ t_ema r <= inject_Z hi)
         /\ (inject_Z (lo - hi) <= t_velocity r
             /\ t_velocity r <= inject_Z (hi - lo)).
Proof.
  intros _ H. destruct (calc_trends_row_block span df H) as (out & Ho & Hb).
  exists out. split; [exact Ho|].
  intros r lo hi Hr Hocc.
  destruct (Hb r Hr) as (rows & Hin & _ & H2 & H3 & H4).
  exact (block_bounds span (t_style r) df rows lo hi r H H2 H3 H4 Hocc Hin).
Qed.

Lemma calc_trends_ema_bounds_witness :
  exists out,
    calc_trends 3 Scenario.streetwear_days = Ok out
    /\ forall r lo hi,
         In r out ->
         (forall day, In (t_style r, day) Scenario.streetwear_days ->
                      (lo <= occurrences (t_style r, day)
                               Scenario.streetwear_days <= hi)%Z) ->
         (inject_Z lo <= t_ema r /\ t_ema r <= inject_Z hi)
         /\ (inject_Z (lo - hi) <= t_velocity r
             /\ t_velocity r <= inject_Z (hi - lo)).
Proof.
  apply (calc_trends_ema_bounds 3 Scenario.streetwear_days);
    [discriminate | lia].
Defined.

(** X10.  A category with the same number of items on every one of its
    days has that number as its smoothed value on every day and velocity
    zero throughout. *)
Theorem calc_trends_steady (span : Z) (df : list (string * Z)) :
  df <> [] ->
  (1 <= span)%Z ->
  exists out,
    calc_trends span df = Ok out
    /\ forall r c,
         In r out ->
         (forall day, In (t_style r, day) df ->
                      occurrences (t_style r, day) df = c) ->
         t_ema r == inject_Z c /\ t_velocity r == 0.
Proof.
  intros _ H. destruct (calc_trends_row_block span df H) as (out & Ho & Hb).
  exists out. split; [exact Ho|].
  intros r c Hr Hocc.
  destruct (Hb r Hr) as (rows & Hin & _ & H2 & H3 & H4).
  destruct (block_bounds span (t_style r) df rows c c r H H2 H3 H4)
    as ((E1 & E2) & (V1 & V2)); [|exact Hin|].
  { intros day Hd. rewrite (Hocc day Hd). lia. }
  rewrite Z.sub_diag in V1, V2.
  split; apply Qle_antisym; assumption.
Qed.

Lemma calc_trends_steady_witness :
  exists out,
    calc_trends 3 [("formal"%string, 4%Z); ("formal"%string, 5%Z)] = Ok out
    /\ forall r c,
         In r out ->
         (forall day,
             In (t_style r, day)
               [("formal"%string, 4%Z); ("formal"%string, 5%Z)] ->
             occurrences (t_style r, day)
               [("formal"%string, 4%Z); ("formal"%string, 5%Z)] = c) ->
         t_ema r == inject_Z c /\ t_velocity r == 0.
Proof.
  apply (calc_trends_steady 3
           [("formal"%string, 4%Z); ("formal"%string, 5%Z)]);
    [discriminate | lia].
Defined.

(** ** [calc_trends]: the first day of a category *)

Lemma block_first_day (span : Z) (s : string) (df : list (string * Z))
    (rows : list trend) (r : trend) :
  (1 <= span)%Z ->
  map (fun r => (t_day r, t_count r)) rows = group_of s (groupby_size df) ->
  Forall2 Qeq (map t_ema rows)
    (adjusted_ema (alpha_of_span span)
       (map (fun r => inject_Z (snd r)) (group_of s (groupby_size df)))) ->
  map t_velocity rows = diff_fillna0 (map t_ema rows) ->
  (forall day, In (s, day) df -> (t_day r <= day)%Z) ->
  In r rows ->
  t_ema r == inject_Z (t_count r) /\ t_velocity r = 0.
Proof.
  intros Hs Hdc Hema Hvel Hmin Hin.
  destruct (group_of_groupby_size s df) as (Hsorted & Hcounts & _).
  rewrite <- Hdc in Hsorted, Hcounts, Hema.
  destruct rows as [|r0 rest]; [destruct Hin|].
  assert (Hr : r = r0).
  { destruct Hin as [E|Hin]; [now symmetry|]. exfalso.
    simpl in Hsorted. inversion Hsorted as [|? ? _ Hlt]; subst.
    rewrite Forall_forall in Hlt.
    assert (Hi : In (t_day r, t_count r)
                   (map (fun r => (t_day r, t_count r)) rest))
      by (apply in_map_iff; eauto).
    specialize (Hlt _ Hi). simpl in Hlt.
    simpl in Hcounts. inversion Hcounts as [|? ? (Ec & Hpos) _]; subst.
    simpl in Ec, Hpos.
    assert (Hd : In (s, t_day r0) df)
      by (apply occurrences_pos_In; rewrite <- Ec; exact Hpos).
    specialize (Hmin _ Hd). lia. }
  subst r0. simpl in Hema, Hvel.
  unfold adjusted_ema in Hema. simpl in Hema.
  inversion Hema as [|? ? ? ? E _]; subst.
  split.
  - rewrite E. unfold adjusted_mean. simpl. field.
  - now injection Hvel as ->.
Qed.

(** X11.  On the first observed day of a category the smoothed value is
    the count of that day and the velocity is zero. *)
Theorem calc_trends_first_day (span : Z) (df : list (string * Z)) :
  df <> [] ->
  (1 <= span)%Z ->
  exists out,
    calc_trends span df = Ok out
    /\ forall r,
         In r out ->
         (forall day, In (t_style r, day) df -> (t_day r <= day)%Z) ->
         t_ema r == inject_Z (t_count r) /\ t_velocity r = 0.
Proof.
  intros _ H. destruct (calc_trends_row_block span df H) as (out & Ho & Hb).
  exists out. split; [exact Ho|].
  intros r Hr Hmin.
  destruct (Hb r Hr) as (rows & Hin & _ & H2 & H3 & H4).
  exact (block_first_day span (t_style r) df rows r H H2 H3 H4 Hmin Hin).
Qed.

Lemma calc_trends_first_day_witness :
  exists out,
    calc_trends 5 Scenario.streetwear_days = Ok out
    /\ forall r,
         In r out ->
         (forall day, In (t_style r, day) Scenario.streetwear_days ->
                      (t_day r <= day)%Z) ->
         t_ema r == inject_Z (t_count r) /\ t_velocity r = 0.
Proof.
  apply (calc_trends_first_day 5 Scenario.streetwear_days);
    [discriminate | lia].
Defined.

Lemma latest_all_zero (trends : list trend) (s : string) :
  (forall r, In r trends -> t_style r = s -> t_velocity r = 0) ->
  latestVelocity trends s = 0.
Proof.
  intros Hall. unfold latestVelocity, latest_of, dict_get.
  rewrite latest_find_rev.
  destruct (find (fun r => String.eqb (t_style r) s)
              (rev (sort_by (fun y x => (t_day y <? t_day x)%Z) trends)))
    as [r1|] eqn:Ef; [|reflexivity].
  apply find_some in Ef. destruct Ef as (Hin & He).
  rewrite <- in_rev in Hin. apply String.eqb_eq in He. simpl.
  apply Hall; [|exact He].
  eapply Permutation_in; [apply sort_by_perm | exact Hin].
Qed.

(** X12.  In the table [calc_trends] writes, a category whose items all
    fall on one day has latest velocity zero: [recommend] gives it no
    trend boost. *)
Theorem single_day_no_boost (span : Z) (df : list (string * Z)) :
  df <> [] ->
  (1 <= span)%Z ->
  exists out,
    calc_trends span df = Ok out
    /\ forall s d,
         (forall day, In (s, day) df -> day = d) ->
         latestVelocity out s = 0
         /\ Qmax 0 (latestVelocity out s) == 0.
Proof.
  intros _ H. destruct (calc_trends_row_block span df H) as (out & Ho & Hb).
  exists out. split; [exact Ho|].
  intros s d Hday.
  assert (Hz : latestVelocity out s = 0).
  { apply latest_all_zero. intros r Hr Hst.
    destruct (Hb r Hr) as (rows & Hin & _ & H2 & H3 & H4).
    rewrite Hst in H2, H3.
    destruct (group_of_groupby_size s df) as (_ & Hcounts & _).
    apply (block_first_day span s df rows r H H2 H3 H4); [|exact Hin].
    intros day Hd. rewrite (Hday day Hd).
    assert (Hi : In (t_day r, t_count r) (group_of s (groupby_size df))).
    { rewrite <- H2. apply in_map_iff. eauto. }
    rewrite Forall_forall in Hcounts.
    destruct (Hcounts _ Hi) as (Ec & Hpos). simpl in Ec, Hpos.
    assert (Hd' : In (s, t_day r) df)
      by (apply occurrences_pos_In; rewrite <- Ec; exact Hpos).
    rewrite (Hday _ Hd'). lia. }
  split; [exact Hz|]. rewrite Hz. reflexivity.
Qed.

Lemma single_day_no_boost_witness :
  exists out,
    calc_trends 5 Scenario.streetwear_days = Ok out
    /\ forall s d,
         (forall day, In (s, day) Scenario.streetwear_days -> day = d) ->
         latestVelocity out s = 0
         /\ Qmax 0 (latestVelocity out s) == 0.
Proof.
  apply (single_day_no_boost 5 Scenario.streetwear_days); [discriminate | lia].
Defined.

(** ** [calc_trends]: the order of the catalogue rows *)

Lemma grouped_ext (g1 g2 : list (string * Z * Z)) :
  grouped g1 -> grouped g2 ->
  (forall k, count_of k g1 = count_of k g2) ->
  g1 = g2.
Proof.
  intros [Hs1 Hp1]. revert g2 Hp1.
  induction Hs1 as [|[k1 c1] g1 Hs1 IH Hk1]; intros g2 Hp1 [Hs2 Hp2] Hc.
  - destruct g2 as [|[k2 c2] g2]; [reflexivity|]. exfalso.
    specialize (Hc k2). simpl in Hc. rewrite key_eqb_refl in Hc.
    inversion Hp2 as [|? ? Hpos _]; subst. simpl in Hpos. lia.
  - inversion Hp1 as [|? ? Hpos1 Hp1']; subst. simpl in Hpos1.
    assert (Habove1 : count_of k1 g1 = 0%Z)
      by (apply count_of_above; exact Hk1).
    destruct g2 as [|[k2 c2] g2].
    + exfalso. specialize (Hc k1). simpl in Hc.
      rewrite key_eqb_refl in Hc. lia.
    + inversion Hs2 as [|? ? Hs2' Hk2]; subst.
      inversion Hp2 as [|? ? Hpos2 Hp2']; subst. simpl in Hpos2.
      assert (Habove2 : count_of k2 g2 = 0%Z)
        by (apply count_of_above; exact Hk2).
      destruct (key_eqb k1 k2) eqn:E.
      * apply key_eqb_eq in E. subst k2.
        assert (c1 = c2) as ->.
        { specialize (Hc k1). simpl in Hc.
          now rewrite key_eqb_refl in Hc. }
        f_equal. apply IH; [exact Hp1' | now split|].
        intros k. specialize (Hc k). simpl in Hc.
        destruct (key_eqb k k1) eqn:E'; [|exact Hc].
        apply key_eqb_eq in E'. subst k. congruence.
      * exfalso. destruct (key_ltb k1 k2) eqn:L.
        -- specialize (Hc k1). simpl in Hc.
           rewrite key_eqb_refl, E in Hc.
           rewrite (count_of_above k1 g2) in Hc; [lia|].
           eapply Forall_impl; [|exact Hk2].
           intros e He. simpl in He. exact (key_ltb_trans _ _ _ L He).
        -- pose proof (key_ltb_total _ _ E L) as L'.
           specialize (Hc k2). simpl in Hc.
           rewrite key_eqb_refl in Hc.
           assert (E2 : key_eqb k2 k1 = false).
           { destruct (key_eqb k2 k1) eqn:E2; [|reflexivity].
             apply key_eqb_eq in E2. subst k2.
             now rewrite key_eqb_refl in E. }
           rewrite E2 in Hc.
           rewrite (count_of_above k2 g1) in Hc; [lia|].
           eapply Forall_impl; [|exact Hk1].
           intros e He. simpl in He. exact (key_ltb_trans _ _ _ L' He).
Qed.

(** X13.  The table [calc_trends] writes does not depend on the order of
    the rows of the catalogue. *)
Theorem calc_trends_row_order (span : Z) (df df' : list (string * Z)) :
  Permutation df df' ->
  groupby_size df = groupby_size df'
  /\ calc_trends span df = calc_trends span df'.
Proof.
  intros Hp.
  assert (Hg : groupby_size df = groupby_size df').
  { destruct (groupby_size_grouped df) as (Hg1 & Hc1).
    destruct (groupby_size_grouped df') as (Hg2 & Hc2).
    apply grouped_ext; [exact Hg1 | exact Hg2|].
    intros k. rewrite Hc1, Hc2. unfold occurrences. f_equal.
    now apply filter_perm_length. }
  split; [exact Hg|]. unfold calc_trends. now rewrite Hg.
Qed.

Lemma calc_trends_row_order_witness :
  calc_trends 5 [("formal"%string, 2%Z); ("grunge"%string, 1%Z)]
  = calc_trends 5 [("grunge"%string, 1%Z); ("formal"%string, 2%Z)].
Proof.
  apply (calc_trends_row_order 5
           [("formal"%string, 2%Z); ("grunge"%string, 1%Z)]
           [("grunge"%string, 1%Z); ("formal"%string, 2%Z)]).
  apply perm_swap.
Defined.

(** ** The indexing script: embeddings, styles and the index *)
Section IndexScript.
Local Open Scope R_scope.

Lemma renorm_L2_length (x : list R) :
  List.length (renorm_L2 x) = List.length x.
Proof.
  unfold renorm_L2. destruct (Rlt_dec 0 (norm_L2sqr x)); [|reflexivity].
  apply length_map.
Qed.











(** X17.  After a successful build on a non-empty catalogue the index
    holds one vector per row of the catalogue, and every vector, like
    every stored embedding, has the dimension of the index.  On an empty
    catalogue the index file is left as it was. *)
Theorem build_faiss_index_shape (items : list (item R))
    (file : option (IndexFlatIP R)) (index : IndexFlatIP R) :
  items <> [] ->
  build_faiss items file = Ok (Some index) ->
  List.length (xb index) = List.length items
  /\ Forall (fun x => List.length x = d index) (xb index)
  /\ Forall (fun it => List.length (emb it) = d index) items
  /\ build_faiss [] file = Ok file.
Proof.
  intros Hne H. pose proof (build_faiss_inv items file index Hne H) as Hxb.
  destruct items as [|it items]; [now elim Hne|].
  unfold build_faiss, vstack in H. cbn [map] in H.
  destruct (forallb (fun r' => (List.length r' =? List.length (emb it))%nat)
              (map emb items)) eqn:E; simpl in H; [|discriminate].
  injection H as H.
  assert (Hd : d index = List.length (emb it)) by now rewrite <- H.
  clear H. rewrite Hxb, Hd.
  assert (Hall : Forall (fun x => List.length (emb x)
                                  = List.length (emb it)) (it :: items)).
  { rewrite Forall_forall. intros x [<-|Hx]; [reflexivity|].
    apply Nat.eqb_eq.
    apply (proj1 (forallb_forall _ _) E). now apply in_map. }
  split; [now rewrite !length_map|].
  split; [|split; [exact Hall | reflexivity]].
  rewrite Forall_forall.
  intros x Hx. apply in_map_iff in Hx. destruct Hx as (y & <- & Hy).
  rewrite renorm_L2_length. apply in_map_iff in Hy.
  destruct Hy as (a & <- & Ha). rewrite Forall_forall in Hall.
  now apply Hall.
Qed.

Lemma build_faiss_index_shape_witness :
  List.length
    (xb (mk_index 2 (normalize_L2 (map emb Scenario.blank_items))))
  = List.length Scenario.blank_items
  /\ Forall (fun x => List.length x = 2%nat)
       (xb (mk_index 2 (normalize_L2 (map emb Scenario.blank_items))))
  /\ Forall (fun it => List.length (emb it) = 2%nat) Scenario.blank_items
  /\ build_faiss [] None = Ok None.
Proof.
  apply (build_faiss_index_shape Scenario.blank_items None
           (mk_index 2 (normalize_L2 (map emb Scenario.blank_items)))).
  - discriminate.
  - reflexivity.
Defined.
End IndexScript.
